(** * dnsproxy: upstream construction, bootstrap resolution and bogus-NXDOMAIN
    detection.

    A shallow embedding of [upstream/upstream.go] and [proxy/bogusnxdomain.go].
    Go values are modelled as follows:
    - [string] is a byte string ([String.string]);
    - [error] values are kept structured (format, arguments, wrapped cause)
      instead of rendered, and a Go [error] that may be [nil] is an
      [option error];
    - a pointer [*Options] is an [option loc] into a heap of [Options];
    - calls to collaborators that perform I/O are answered by oracles that
      see the whole history of earlier calls, and every call is appended to
      that history. *)

From Stdlib Require Import ZArith NArith Ascii String.
From stdpp Require Import base option list functions gmap strings.

Set Warnings "-register-all".
Local Open Scope list_scope.
Local Open Scope N_scope.

(** ** Go errors *)

(** An argument of [fmt.Errorf] other than the one given to [%w]. *)
Inductive fmtArg : Type :=
| ArgS (s : string)
| ArgD (n : nat).

Inductive error : Type :=
| errorString (s : string)
| AddrError (Err Addr : string)
| NumError (Func Num : string) (Err : error)
| fmtError (format : string) (args : list fmtArg)
| wrapError (format : string) (args : list fmtArg) (wrapped : error)
| joinError (errs : list error).

(** [errors.Join]: [nil] arguments are discarded, and the result is [nil] when
    nothing is left.  (The [errors] package of golibs forwards to the standard
    library.) *)
Definition errors_Join (errs : list (option error)) : option error :=
  match omap id errs with
  | [] => None
  | es => Some (joinError es)
  end.

(** ** Strings *)

(** [strings.IndexByte s c]. *)
Fixpoint IndexByteString (s : string) (c : ascii) : option nat :=
  match s with
  | EmptyString => None
  | String a s' =>
      if Ascii.eqb a c then Some 0%nat else S <$> IndexByteString s' c
  end.

(** [strings.LastIndexByte s c]. *)
Fixpoint LastIndexByteString (s : string) (c : ascii) : option nat :=
  match s with
  | EmptyString => None
  | String a s' =>
      match LastIndexByteString s' c with
      | Some i => Some (S i)
      | None => if Ascii.eqb a c then Some 0%nat else None
      end
  end.

(** The slice [s[lo:hi]] and the slice [s[lo:]]. *)
Definition slice (s : string) (lo hi : nat) : string :=
  String.substring lo (hi - lo) s.
Definition slice_from (s : string) (lo : nat) : string :=
  String.substring lo (String.length s - lo) s.

(** [strings.Contains s sub]. *)
Fixpoint strings_Contains (s sub : string) : bool :=
  String.prefix sub s
  || match s with
     | EmptyString => false
     | String _ s' => strings_Contains s' sub
     end.

Definition is_empty (s : string) : bool :=
  match s with EmptyString => true | _ => false end.

(** ** [net.SplitHostPort] *)

Definition missingPort : string := "missing port in address".
Definition tooManyColons : string := "too many colons in address".

Definition net_SplitHostPort (hostport : string) : error + (string * string) :=
  let addrErr (why : string) : error + (string * string) :=
    inl (AddrError why hostport) in
  (* The port starts after the last colon. *)
  match LastIndexByteString hostport ":" with
  | None => addrErr missingPort
  | Some i =>
      let bracketed :=
        match String.get 0 hostport with
        | Some c => Ascii.eqb c "["
        | None => false
        end in
      let checked : error + (string * nat * nat) :=
        if bracketed then
          (* Expect the first ']' just before the last ':'. *)
          match IndexByteString hostport "]" with
          | None => inl (AddrError "missing ']' in address" hostport)
          | Some end_ =>
              if (end_ + 1 =? String.length hostport)%nat then
                inl (AddrError missingPort hostport)
              else if (end_ + 1 =? i)%nat then
                inr (slice hostport 1 end_, 1%nat, (end_ + 1)%nat)
              else
                match String.get (end_ + 1) hostport with
                | Some ":"%char => inl (AddrError tooManyColons hostport)
                | _ => inl (AddrError missingPort hostport)
                end
          end
        else
          let host := slice hostport 0 i in
          match IndexByteString host ":" with
          | Some _ => inl (AddrError tooManyColons hostport)
          | None => inr (host, 0%nat, 0%nat)
          end in
      match checked with
      | inl e => inl e
      | inr (host, j, k) =>
          match IndexByteString (slice_from hostport j) "[" with
          | Some _ => addrErr "unexpected '[' in address"
          | None =>
              match IndexByteString (slice_from hostport k) "]" with
              | Some _ => addrErr "unexpected ']' in address"
              | None => inr (host, slice_from hostport (i + 1))
              end
          end
      end
  end.

(** ** [strconv.ParseUint] for an explicit base between 2 and 36 *)

Definition ErrSyntax : error := errorString "invalid syntax".
Definition ErrRange : error := errorString "value out of range".
Definition syntaxError (fn str : string) : error := NumError fn str ErrSyntax.
Definition rangeError (fn str : string) : error := NumError fn str ErrRange.

Definition maxUint64 : N := 2 ^ 64 - 1.
Definition lower (c : N) : N := N.lor c 32.

(** The value of one digit, or [None] where the source reports a syntax
    error. *)
Definition digit_val (c base : N) : option N :=
  let d :=
    if (48 <=? c) && (c <=? 57) then Some (c - 48)
    else if (97 <=? lower c) && (lower c <=? 122) then Some (lower c - 97 + 10)
    else None in
  match d with
  | Some d => if base <=? d then None else Some d
  | None => None
  end.

Fixpoint ParseUint_loop (s0 s : string) (base cutoff maxVal n : N)
  : N * option error :=
  match s with
  | EmptyString => (n, None)
  | String c rest =>
      match digit_val (N_of_ascii c) base with
      | None => (0, Some (syntaxError "ParseUint" s0))
      | Some d =>
          if cutoff <=? n then (maxVal, Some (rangeError "ParseUint" s0))
          else
            let n' := (n * base) mod 2 ^ 64 in
            let n1 := (n' + d) mod 2 ^ 64 in
            if (n1 <? n') || (maxVal <? n1)
            then (maxVal, Some (rangeError "ParseUint" s0))
            else ParseUint_loop s0 rest base cutoff maxVal n1
      end
  end.

Definition strconv_ParseUint (s : string) (base bitSize : N)
  : N * option error :=
  if is_empty s then (0, Some (syntaxError "ParseUint" s))
  else
    let cutoff := maxUint64 / base + 1 in
    let maxVal := 2 ^ bitSize - 1 in
    ParseUint_loop s s base cutoff maxVal 0.

(** ** [netutil.SplitHostPort] (golibs): [net.SplitHostPort] followed by the
    parse of the port as a 16-bit number. *)
Definition netutil_SplitHostPort (hostport : string) : error + (string * N) :=
  match net_SplitHostPort hostport with
  | inl err => inl err
  | inr (host, portStr) =>
      match strconv_ParseUint portStr 10 16 with
      | (_, Some err) => inl (wrapError "parsing port: %w" [] err)
      | (portUint, None) => inr (host, portUint mod 2 ^ 16)
      end
  end.

(** ** Configuration and addresses *)

(** [net.IP]: a byte slice. *)
Definition IP : Type := list N.

(** The identity of a Go function value or of a pointed-to object. *)
Definition ref : Type := nat.

Record Options : Type := mkOptions {
  VerifyServerCertificate : option ref;
  VerifyConnection : option ref;
  VerifyDNSCryptCertificate : option ref;
  QUICTracer : option ref;
  RootCAs : option ref;
  CipherSuites : list N;
  Bootstrap : list string;
  ServerIPAddrs : list IP;
  HTTPVersions : list string;
  Timeout : Z;
  InsecureSkipVerify : bool;
  PreferIPv6 : bool
}.

(** The zero value [Options{}]. *)
Definition zeroOptions : Options :=
  mkOptions None None None None None [] [] [] [] 0%Z false false.

(** The assignment [opts.ServerIPAddrs = ips]. *)
Definition set_ServerIPAddrs (ips : list IP) (o : Options) : Options :=
  mkOptions (VerifyServerCertificate o) (VerifyConnection o)
    (VerifyDNSCryptCertificate o) (QUICTracer o) (RootCAs o) (CipherSuites o)
    (Bootstrap o) ips (HTTPVersions o) (Timeout o) (InsecureSkipVerify o)
    (PreferIPv6 o).

(** [url.URL], with the fields this package reads or sets. *)
Record URL : Type := mkURL {
  Scheme : string;
  Host : string;
  Path : string;
  RawQuery : string;
  Fragment : string
}.

(** The literal [&url.URL{Scheme: s, Host: h, Path: p}]. *)
Definition URL_lit (s h p : string) : URL := mkURL s h p EmptyString EmptyString.

(** ** Host and port strings

    Facts about [net.SplitHostPort] and [strconv.ParseUint] on the addresses
    this package builds and takes apart. *)

From Stdlib Require Import Lia.

(** [net.JoinHostPort]: a host with a colon is put between brackets. *)
Definition net_JoinHostPort (host port : string) : string :=
  match IndexByteString host ":" with
  | Some _ => "[" +:+ host +:+ "]:" +:+ port
  | None => host +:+ ":" +:+ port
  end.

(** [s] has none of the bytes that [net.SplitHostPort] looks for. *)
Definition bracket_free (s : string) : Prop :=
  IndexByteString s "[" = None /\ IndexByteString s "]" = None.
Definition colon_free (s : string) : Prop := IndexByteString s ":" = None.

(** Decimal numerals and their values. *)
Definition is_digit (c : ascii) : bool :=
  (48 <=? N_of_ascii c) && (N_of_ascii c <=? 57).

Fixpoint digits_only (s : string) : bool :=
  match s with
  | EmptyString => true
  | String c rest => is_digit c && digits_only rest
  end.

Fixpoint decimal_from (acc : N) (s : string) : N :=
  match s with
  | EmptyString => acc
  | String c rest => decimal_from (acc * 10 + (N_of_ascii c - 48)) rest
  end.

Definition decimal_value (s : string) : N := decimal_from 0 s.

Lemma append_nil_l (t : string) : "" +:+ t = t.
Proof. reflexivity. Qed.

Lemma append_cons (a : ascii) (s t : string) :
  String a s +:+ t = String a (s +:+ t).
Proof. reflexivity. Qed.

Lemma IndexByteString_app (s t : string) (c : ascii) :
  IndexByteString (s +:+ t) c =
  match IndexByteString s c with
  | Some i => Some i
  | None => (fun i => (String.length s + i)%nat) <$> IndexByteString t c
  end.
Proof.
  induction s as [|a s IH]; rewrite ?append_nil_l, ?append_cons; simpl.
  - by destruct (IndexByteString t c).
  - destruct (Ascii.eqb a c); [done|]. rewrite IH.
    destruct (IndexByteString s c); [done|].
    by destruct (IndexByteString t c).
Qed.

Lemma LastIndexByteString_app (s t : string) (c : ascii) :
  LastIndexByteString (s +:+ t) c =
  match LastIndexByteString t c with
  | Some i => Some (String.length s + i)%nat
  | None => LastIndexByteString s c
  end.
Proof.
  induction s as [|a s IH]; rewrite ?append_nil_l, ?append_cons; simpl;
    [by destruct (LastIndexByteString t c)|].
  rewrite IH. by destruct (LastIndexByteString t c).
Qed.

Lemma LastIndexByteString_None (s : string) (c : ascii) :
  LastIndexByteString s c = None <-> IndexByteString s c = None.
Proof.
  induction s as [|a s [IH1 IH2]]; simpl; [done|].
  destruct (LastIndexByteString s c) as [i|], (IndexByteString s c) as [j|];
    simpl.
  - destruct (Ascii.eqb a c); split; done.
  - discriminate (IH2 eq_refl).
  - discriminate (IH1 eq_refl).
  - destruct (Ascii.eqb a c); split; done.
Qed.

Lemma substring_app_l (s t : string) :
  String.substring 0 (String.length s) (s +:+ t) = s.
Proof.
  induction s as [|a s IH]; rewrite ?append_nil_l, ?append_cons; simpl;
    [by destruct t|]. by rewrite IH.
Qed.

Lemma substring_app_r (s t : string) (n : nat) :
  String.substring (String.length s) n (s +:+ t) = String.substring 0 n t.
Proof.
  induction s as [|a s IH]; rewrite ?append_nil_l, ?append_cons; simpl; [done|].
  by rewrite IH.
Qed.

Lemma substring_all (s : string) :
  String.substring 0 (String.length s) s = s.
Proof. induction s as [|a s IH]; simpl; [done|]. by rewrite IH. Qed.

Lemma length_append (s t : string) :
  String.length (s +:+ t) = (String.length s + String.length t)%nat.
Proof.
  induction s as [|a s IH]; rewrite ?append_nil_l, ?append_cons; simpl; [done|].
  by rewrite IH.
Qed.

Lemma slice_from_app (s t : string) :
  slice_from (s +:+ t) (String.length s) = t.
Proof.
  unfold slice_from. rewrite length_append, substring_app_r.
  replace (String.length s + String.length t - String.length s)%nat
    with (String.length t) by lia.
  apply substring_all.
Qed.

Lemma slice_from_0 (s : string) : slice_from s 0 = s.
Proof. unfold slice_from. rewrite Nat.sub_0_r. apply substring_all. Qed.

Lemma slice_app_l (s t : string) : slice (s +:+ t) 0 (String.length s) = s.
Proof. unfold slice. rewrite Nat.sub_0_r. apply substring_app_l. Qed.

Lemma digits_only_no_byte (p : string) (c : ascii) :
  digits_only p = true -> is_digit c = false -> IndexByteString p c = None.
Proof.
  intros Hp Hc. induction p as [|a p IH]; simpl in *; [done|].
  apply andb_prop in Hp as [Ha Hp].
  destruct (Ascii.eqb_spec a c) as [->|_]; [congruence|]. by rewrite IH.
Qed.

Lemma append_assoc_s (s t u : string) : (s +:+ t) +:+ u = s +:+ (t +:+ u).
Proof.
  induction s as [|a s IH]; rewrite ?append_nil_l, ?append_cons; [done|].
  by rewrite IH.
Qed.

(** The last colon of [pre:p] when [p] has none, and what follows it. *)
Lemma last_colon (pre p : string) :
  colon_free p ->
  LastIndexByteString (pre +:+ ":" +:+ p) ":" = Some (String.length pre) /\
  slice_from (pre +:+ ":" +:+ p) (String.length pre + 1) = p.
Proof.
  intros Hp. split.
  - rewrite LastIndexByteString_app. rewrite append_cons, append_nil_l. simpl.
    apply LastIndexByteString_None in Hp. rewrite Hp. simpl.
    by rewrite Nat.add_0_r.
  - rewrite <- append_assoc_s.
    replace (String.length pre + 1)%nat with (String.length (pre +:+ ":"))
      by (rewrite length_append; simpl; lia).
    apply slice_from_app.
Qed.

Lemma get_0_not (s : string) (c : ascii) :
  IndexByteString s c = None ->
  match String.get 0 s with Some a => Ascii.eqb a c | None => false end = false.
Proof.
  destruct s as [|a s]; simpl; [done|]. by destruct (Ascii.eqb a c).
Qed.

Lemma get_0_app (s t : string) :
  String.get 0 (s +:+ t) =
  match String.get 0 s with Some a => Some a | None => String.get 0 t end.
Proof. by destruct s. Qed.

(** [net.SplitHostPort] takes [host:port] apart. *)
Lemma net_SplitHostPort_host_port (h p : string) :
  colon_free h -> bracket_free h -> colon_free p -> bracket_free p ->
  net_SplitHostPort (h +:+ ":" +:+ p) = inr (h, p).
Proof.
  intros Hh [Hh1 Hh2] Hp [Hp1 Hp2]. unfold net_SplitHostPort.
  destruct (last_colon h p Hp) as [-> Hport].
  assert (IndexByteString (h +:+ ":" +:+ p) "[" = None) as Hall1.
  { rewrite IndexByteString_app, Hh1, append_cons, append_nil_l. simpl.
    by rewrite Hp1. }
  assert (IndexByteString (h +:+ ":" +:+ p) "]" = None) as Hall2.
  { rewrite IndexByteString_app, Hh2, append_cons, append_nil_l. simpl.
    by rewrite Hp2. }
  rewrite (get_0_not _ _ Hall1). rewrite slice_app_l, Hh.
  rewrite slice_from_0, Hall1, Hall2. by rewrite Hport.
Qed.

(** [net.SplitHostPort] takes [[host]:port] apart. *)
Lemma net_SplitHostPort_bracketed (h p : string) :
  bracket_free h -> colon_free p -> bracket_free p ->
  net_SplitHostPort ("[" +:+ h +:+ "]:" +:+ p) = inr (h, p).
Proof.
  intros [Hh1 Hh2] Hp [Hp1 Hp2]. unfold net_SplitHostPort.
  replace ("[" +:+ h +:+ "]:" +:+ p) with (("[" +:+ h +:+ "]") +:+ ":" +:+ p)
    by (by rewrite !append_assoc_s).
  destruct (last_colon ("[" +:+ h +:+ "]") p Hp) as [-> Hport].
  rewrite Hport.
  replace (("[" +:+ h +:+ "]") +:+ ":" +:+ p) with (String "[" (h +:+ String "]" (String ":" p)))
    by (by rewrite !append_assoc_s).
  assert (String.length ("[" +:+ h +:+ "]") = S (String.length h + 1)) as ->.
  { rewrite append_cons, append_nil_l. simpl. by rewrite length_append. }
  cbn [String.get]. change (Ascii.eqb "[" "[") with true.
  cbn [IndexByteString]. change (Ascii.eqb "[" "]") with false.
  rewrite IndexByteString_app, Hh2. cbn [IndexByteString].
  change (Ascii.eqb "]" "]") with true.
  cbn [fmap option_fmap option_map].
  rewrite Nat.add_0_r.
  assert ((S (String.length h) + 1 =?
           String.length (String "[" (h +:+ String "]" (String ":" p))))%nat = false) as ->.
  { apply Nat.eqb_neq. simpl. rewrite length_append. simpl. lia. }
  assert ((S (String.length h) + 1 =? S (String.length h + 1))%nat = true) as ->.
  { apply Nat.eqb_eq. lia. }
  cbv beta iota zeta.
  assert (slice (String "[" (h +:+ String "]" (String ":" p))) 1 (S (String.length h)) = h) as ->.
  { unfold slice. simpl. rewrite Nat.sub_0_r. apply substring_app_l. }
  assert (slice_from (String "[" (h +:+ String "]" (String ":" p))) 1 =
          h +:+ String "]" (String ":" p)) as ->.
  { unfold slice_from. simpl. rewrite Nat.sub_0_r. apply substring_all. }
  rewrite IndexByteString_app, Hh1. cbn [IndexByteString].
  change (Ascii.eqb "]" "[") with false. change (Ascii.eqb ":" "[") with false.
  rewrite Hp1.
  cbn [fmap option_fmap option_map].
  assert (slice_from (String "[" (h +:+ String "]" (String ":" p))) (S (String.length h) + 1) =
          String ":" p) as ->.
  { replace (String "[" (h +:+ String "]" (String ":" p)))
      with (("[" +:+ h +:+ "]") +:+ String ":" p)
      by (by rewrite !append_assoc_s).
    replace (S (String.length h) + 1)%nat with (String.length ("[" +:+ h +:+ "]")). 
    - apply slice_from_app.
    - rewrite append_cons, append_nil_l. simpl. rewrite length_append. simpl. lia. }
  cbn [IndexByteString]. change (Ascii.eqb ":" "]") with false.
  by rewrite Hp2.
Qed.

Lemma decimal_from_ge (s : string) : forall acc, acc <= decimal_from acc s.
Proof.
  induction s as [|c s IH]; intros acc; simpl; [lia|].
  etransitivity; [|apply IH]. lia.
Qed.

Lemma digit_val_digit (c : ascii) :
  is_digit c = true ->
  digit_val (N_of_ascii c) 10 = Some (N_of_ascii c - 48) /\ N_of_ascii c - 48 <= 9.
Proof.
  unfold is_digit, digit_val. intros Hc. rewrite Hc.
  apply andb_prop in Hc as [H1%N.leb_le H2%N.leb_le].
  assert ((10 <=? N_of_ascii c - 48) = false) as -> by (apply N.leb_gt; lia).
  split; [done|lia].
Qed.

(** The loop of [strconv.ParseUint] on a decimal numeral, for base 10 and
    16 bits. *)
Lemma ParseUint_loop_decimal (s0 s : string) :
  digits_only s = true ->
  forall n, n <= 65535 ->
    ParseUint_loop s0 s 10 1844674407370955162 65535 n =
    if decimal_from n s <=? 65535 then (decimal_from n s, None)
    else (65535, Some (rangeError "ParseUint" s0)).
Proof.
  induction s as [|c s IH]; intros Hs n Hn; simpl.
  - by apply N.leb_le in Hn as ->.
  - simpl in Hs. apply andb_prop in Hs as [Hc Hs].
    destruct (digit_val_digit c Hc) as [-> Hd].
    assert ((1844674407370955162 <=? n) = false) as -> by (apply N.leb_gt; lia).
    rewrite (N.mod_small (n * 10)) by (change (2 ^ 64) with 18446744073709551616; lia).
    rewrite N.mod_small by (change (2 ^ 64) with 18446744073709551616; lia).
    assert ((n * 10 + (N_of_ascii c - 48) <? n * 10) = false) as ->
      by (apply N.ltb_ge; lia).
    simpl. destruct (65535 <? n * 10 + (N_of_ascii c - 48)) eqn:Hover.
    + apply N.ltb_lt in Hover.
      pose proof (decimal_from_ge s (n * 10 + (N_of_ascii c - 48))) as Hge.
      assert ((decimal_from (n * 10 + (N_of_ascii c - 48)) s <=? 65535) = false) as ->
        by (apply N.leb_gt; lia).
      done.
    + apply N.ltb_ge in Hover. by apply IH.
Qed.

(** [strconv.ParseUint(p, 10, 16)] on a non-empty decimal numeral: its value
    up to 65535, a range error above. *)
Lemma strconv_ParseUint_decimal (p : string) :
  p <> EmptyString ->
  digits_only p = true ->
  strconv_ParseUint p 10 16 =
  if decimal_value p <=? 65535 then (decimal_value p, None)
  else (65535, Some (rangeError "ParseUint" p)).
Proof.
  intros Hne Hp. unfold strconv_ParseUint.
  destruct p as [|c p]; [done|]. cbn [is_empty].
  change (maxUint64 / 10 + 1) with 1844674407370955162.
  change (2 ^ 16 - 1) with 65535.
  by apply ParseUint_loop_decimal.
Qed.

Lemma digits_only_colon_free (p : string) : digits_only p = true -> colon_free p.
Proof. intros Hp. by apply digits_only_no_byte. Qed.

Lemma digits_only_bracket_free (p : string) :
  digits_only p = true -> bracket_free p.
Proof. intros Hp. split; by apply digits_only_no_byte. Qed.

(** [netutil.SplitHostPort] on [host:port] with a decimal port. *)
Lemma netutil_SplitHostPort_decimal (h p : string) :
  colon_free h -> bracket_free h ->
  p <> EmptyString -> digits_only p = true ->
  netutil_SplitHostPort (h +:+ ":" +:+ p) =
  if decimal_value p <=? 65535 then inr (h, decimal_value p)
  else inl (wrapError "parsing port: %w" [] (rangeError "ParseUint" p)).
Proof.
  intros Hh Hb Hne Hp. unfold netutil_SplitHostPort.
  rewrite net_SplitHostPort_host_port
    by auto using digits_only_colon_free, digits_only_bracket_free.
  rewrite strconv_ParseUint_decimal by done.
  destruct (decimal_value p <=? 65535) eqn:Hle; [|done].
  apply N.leb_le in Hle.
  by rewrite N.mod_small by (change (2 ^ 16) with 65536; lia).
Qed.

(** The decimal numeral of [n], least significant digit first into [acc]. *)
Fixpoint decimal_loop (fuel : nat) (n : N) (acc : string) : string :=
  let acc' := String (ascii_of_N (48 + n mod 10)) acc in
  match fuel with
  | O => acc'
  | S fuel => if n <? 10 then acc' else decimal_loop fuel (n / 10) acc'
  end.

Definition decimal (n : N) : string :=
  decimal_loop (N.to_nat (N.log2 n)) n EmptyString.

Lemma N_of_digit (d : N) : d < 10 -> N_of_ascii (ascii_of_N (48 + d)) = 48 + d.
Proof. intros Hd. apply N_ascii_embedding. lia. Qed.

Lemma decimal_loop_value (fuel : nat) :
  forall n acc,
    n < 10 ^ N.of_nat (S fuel) ->
    decimal_from 0 (decimal_loop fuel n acc) = decimal_from n acc.
Proof.
  induction fuel as [|fuel IH]; intros n acc Hn.
  - simpl. change (10 ^ N.of_nat 1) with 10 in Hn.
    rewrite N_of_digit by (apply N.mod_lt; lia).
    rewrite N.mod_small by done. f_equal. lia.
  - cbn [decimal_loop]. destruct (n <? 10) eqn:Hlt.
    + apply N.ltb_lt in Hlt. simpl.
      rewrite N_of_digit by (apply N.mod_lt; lia).
      rewrite N.mod_small by done. f_equal. lia.
    + rewrite IH.
      * simpl. rewrite N_of_digit by (apply N.mod_lt; lia). f_equal.
        pose proof (N.div_mod n 10 ltac:(lia)) as Hdm.
        generalize dependent (n / 10). generalize (n mod 10). intros; lia.
      * apply N.Div0.div_lt_upper_bound.
        rewrite Nat2N.inj_succ, N.pow_succ_r' in Hn. done.
Qed.

Lemma decimal_loop_digits (fuel : nat) :
  forall n acc,
    digits_only acc = true -> digits_only (decimal_loop fuel n acc) = true.
Proof.
  assert (forall n, is_digit (ascii_of_N (48 + n mod 10)) = true) as Hd.
  { intros n. unfold is_digit.
    pose proof (N.mod_lt n 10 ltac:(lia)).
    rewrite N_of_digit by done.
    generalize dependent (n mod 10). intros d Hd.
    apply andb_true_intro. split; apply N.leb_le; lia. }
  induction fuel as [|fuel IH]; intros n acc Hacc; cbn [decimal_loop].
  - simpl. by rewrite Hd.
  - destruct (n <? 10).
    + simpl. by rewrite Hd.
    + apply IH. simpl. by rewrite Hd.
Qed.

Lemma decimal_loop_nonempty (fuel : nat) :
  forall n acc, decimal_loop fuel n acc <> EmptyString.
Proof.
  induction fuel as [|fuel IH]; intros n acc; cbn [decimal_loop]; [done|].
  destruct (n <? 10); [done|apply IH].
Qed.

(** [decimal n] is a numeral, and its value is [n]. *)
Lemma decimal_spec (n : N) :
  decimal n <> EmptyString /\ digits_only (decimal n) = true /\
  decimal_value (decimal n) = n.
Proof.
  unfold decimal, decimal_value. split; [apply decimal_loop_nonempty|].
  split; [by apply decimal_loop_digits|].
  rewrite decimal_loop_value; [done|].
  rewrite Nat2N.inj_succ, N2Nat.id.
  destruct n as [|q]; [done|].
  pose proof (N.log2_spec (N.pos q) ltac:(lia)) as [_ Hlt].
  eapply N.lt_le_trans; [exact Hlt|].
  apply N.pow_le_mono_l. lia.
Qed.

Lemma no_colon_no_scheme (s : string) :
  colon_free s -> strings_Contains s "://" = false.
Proof.
  unfold colon_free. induction s as [|a s IH]; [done|].
  cbn [IndexByteString strings_Contains String.prefix].
  destruct (Ascii.eqb_spec a ":") as [->|Ha]; [done|]. intros Hs.
  destruct (ascii_dec ":" a) as [Heq|_]; [congruence|].
  cbn [orb]. apply IH. by destruct (IndexByteString s ":").
Qed.

(** An address [h:p] with a numeral (or nothing) after its only colon has
    no [://]. *)
Lemma host_port_no_scheme (h p : string) :
  colon_free h -> digits_only p = true ->
  strings_Contains (h +:+ ":" +:+ p) "://" = false.
Proof.
  intros Hh Hp. unfold colon_free in Hh.
  induction h as [|a h IH]; rewrite ?append_nil_l, ?append_cons.
  - rewrite ?append_cons, ?append_nil_l. cbn [strings_Contains String.prefix].
    destruct (ascii_dec ":" ":") as [_|?]; [|done].
    rewrite (no_colon_no_scheme p (digits_only_colon_free p Hp)), orb_false_r.
    destruct p as [|d p]; [done|].
    cbn [digits_only] in Hp. apply andb_prop in Hp as [Hd _].
    cbn [String.prefix].
    destruct (ascii_dec "/" d) as [<-|_]; [done|done].
  - cbn [IndexByteString] in Hh.
    destruct (Ascii.eqb_spec a ":") as [->|Ha]; [done|].
    cbn [strings_Contains String.prefix].
    destruct (ascii_dec ":" a) as [Heq|_]; [congruence|].
    cbn [orb]. apply IH. by destruct (IndexByteString h ":").
Qed.

(** ** Bootstrap resolvers and the dialer initializer *)

Section Bootstrap.

(** [upstreamResolver] values and [bootstrap.DialHandler] values are kept
    abstract; [bootstrap.NewDialContext], [netip.ParseAddr] (its error
    only), [net.IP.String] and [netutil.JoinHostPort] are collaborators
    without effects. *)
Variable upstreamResolver : Type.
Variable DialHandler : Type.
Variable bootstrap_NewDialContext : Z -> list string -> DialHandler.
Variable netip_ParseAddr : string -> option error.
Variable IP_String : IP -> string.
Variable netutil_JoinHostPort : string -> N -> string.

(** [Resolver]: [&net.Resolver{}] or an upstream-backed resolver. *)
Inductive Resolver : Type :=
| netResolver
| upsResolver (r : upstreamResolver).

(** One call to a collaborator that performs I/O, with its result. *)
Inductive Event : Type :=
| EvNewUpstreamResolver (boot : string) (opts : Options)
    (res : error + upstreamResolver)
| EvClose (r : upstreamResolver) (res : option error)
| EvResolveDialContext (u : URL) (timeout : Z) (resolvers : list Resolver)
    (preferIPv6 : bool) (res : error + DialHandler).

(** What each such call answers, given everything that happened before. *)
Record Oracle : Type := mkOracle {
  NewUpstreamResolver_result :
    list Event -> string -> Options -> error + upstreamResolver;
  Close_result : list Event -> upstreamResolver -> option error;
  ResolveDialContext_result :
    list Event -> URL -> Z -> list Resolver -> bool -> error + DialHandler
}.

Variable world : Oracle.

(** Computations that extend the history. *)
Definition IO (A : Type) : Type := list Event -> A * list Event.
Definition ret {A} (a : A) : IO A := fun tr => (a, tr).
Definition bind {A B} (m : IO A) (k : A -> IO B) : IO B :=
  fun tr => let (a, tr') := m tr in k a tr'.

Notation "x <-- m ;; k" := (bind m (fun x => k))
  (at level 100, m at next level, right associativity).

Definition NewUpstreamResolver (boot : string) (opts : Options)
  : IO (error + upstreamResolver) :=
  fun tr =>
    let res := NewUpstreamResolver_result world tr boot opts in
    (res, tr ++ [EvNewUpstreamResolver boot opts res]).

Definition upstreamResolver_Close (r : upstreamResolver) : IO (option error) :=
  fun tr =>
    let res := Close_result world tr r in
    (res, tr ++ [EvClose r res]).

Definition bootstrap_ResolveDialContext (u : URL) (timeout : Z)
    (resolvers : list Resolver) (preferIPv6 : bool)
  : IO (error + DialHandler) :=
  fun tr =>
    let res := ResolveDialContext_result world tr u timeout resolvers preferIPv6 in
    (res, tr ++ [EvResolveDialContext u timeout resolvers preferIPv6 res]).

(** [closeFunc]: [nopClose], or the closure returned by [newResolvers],
    which captures [closeBoots] (the [Close] methods of the resolvers it
    built, each bound to its receiver). *)
Inductive closeFunc : Type :=
| nopClose
| closeBootsFunc (closeBoots : list upstreamResolver).

(** The loop [for _, cb := range closeBoots { errs = append(errs, cb()) }]. *)
Fixpoint closeBoots_loop (closeBoots : list upstreamResolver)
    (errs : list (option error)) : IO (list (option error)) :=
  match closeBoots with
  | [] => ret errs
  | cb :: rest =>
      e <-- upstreamResolver_Close cb ;;
      closeBoots_loop rest (errs ++ [e])
  end.

Definition call_closeFunc (f : closeFunc) : IO (option error) :=
  match f with
  | nopClose => ret None
  | closeBootsFunc closeBoots =>
      errs <-- closeBoots_loop closeBoots [] ;;
      ret (errors_Join errs)
  end.

(** The loop of [newResolvers] from index [i] on. *)
Fixpoint newResolvers_loop (opts : Options) (i : nat) (bootstraps : list string)
    (resolvers : list Resolver) (closeBoots : list upstreamResolver)
  : IO (list Resolver * list upstreamResolver * option error) :=
  match bootstraps with
  | [] => ret (resolvers, closeBoots, None)
  | boot :: rest =>
      if is_empty boot then
        newResolvers_loop opts (S i) rest (resolvers ++ [netResolver]) closeBoots
      else
        r <-- NewUpstreamResolver boot opts ;;
        match r with
        | inl rErr =>
            ret ([], closeBoots,
                 Some (wrapError "preparing bootstrap resolver at index %d: %w"
                         [ArgD i] rErr))
        | inr r =>
            newResolvers_loop opts (S i) rest
              (resolvers ++ [upsResolver r]) (closeBoots ++ [r])
        end
  end.

Definition newResolvers (opts : Options)
  : IO (list Resolver * closeFunc * option error) :=
  let bootstraps := Bootstrap opts in
  match bootstraps with
  | [] => ret ([netResolver], nopClose, None)
  | _ =>
      out <-- newResolvers_loop opts 0 bootstraps [] [] ;;
      let '(resolvers, closeBoots, err) := out in
      ret (resolvers, closeBootsFunc closeBoots, err)
  end.

(** [DialerInitializer]: the constant closure of the fast paths, or the
    closure of the slow path, which captures [u], [opts], [resolvers] and
    the cell [dialHandler]. *)
Inductive DialerInitializer : Type :=
| diHandler (handler : DialHandler)
| diBootstrap (u : URL) (opts : Options) (resolvers : list Resolver).

Definition newDialerInitializer (u : URL) (opts : Options)
  : IO (option DialerInitializer * closeFunc * option error) :=
  match netutil_SplitHostPort (Host u) with
  | inl err =>
      ret (None, nopClose,
           Some (wrapError "invalid address: %s: %w" [ArgS (Host u)] err))
  | inr (host, port) =>
      if (0 <? length (ServerIPAddrs opts))%nat then
        let addrs :=
          map (fun addr => netutil_JoinHostPort (IP_String addr) port)
              (ServerIPAddrs opts) in
        let handler := bootstrap_NewDialContext (Timeout opts) addrs in
        ret (Some (diHandler handler), nopClose, None)
      else
        match netip_ParseAddr host with
        | None =>
            let handler := bootstrap_NewDialContext (Timeout opts) [Host u] in
            ret (Some (diHandler handler), nopClose, None)
        | Some _ =>
            out <-- newResolvers opts ;;
            let '(resolvers, closeBoot, err) := out in
            match err with
            | Some err =>
                cerr <-- call_closeFunc closeBoot ;;
                ret (None, nopClose, errors_Join [Some err; cerr])
            | None => ret (Some (diBootstrap u opts resolvers), closeBoot, None)
            end
        end
  end.

(** *** Invocations of a [DialerInitializer]

    The closure may be invoked from any number of goroutines.  Each
    goroutine is at one of the points below, and one [Step] runs it up to
    and including its next access to the shared cell [dialHandler] or its
    call to [bootstrap.ResolveDialContext]. *)
Inductive pc : Type :=
| pcIdle
| pcEntry
| pcResolve
| pcCAS (h : DialHandler)
| pcReload
| pcReturned (h : option DialHandler) (err : option error)
| pcPanic.

Definition in_call (p : pc) : bool :=
  match p with
  | pcIdle | pcReturned _ _ | pcPanic => false
  | _ => true
  end.

(** [dialHandler] is the [atomic.Pointer] captured by the closure ([None]
    is the nil pointer); [events] is the history of I/O; [resolutions t]
    counts the calls to [bootstrap.ResolveDialContext] made by goroutine
    [t]. *)
Record diState : Type := mkDiState {
  dialHandler : option DialHandler;
  threads : nat -> pc;
  events : list Event;
  resolutions : nat -> nat
}.

(** The state right after [newDialerInitializer] returned. *)
Definition di_init (tr : list Event) : diState :=
  mkDiState None (fun _ => pcIdle) tr (fun _ => 0%nat).

Definition set_pc (t : nat) (p : pc) (s : diState) : diState :=
  mkDiState (dialHandler s) (<[t := p]> (threads s)) (events s) (resolutions s).

Inductive action : Type :=
| Call (t : nat)
| Step (t : nat).

Definition di_step (di : DialerInitializer) (t : nat) (s : diState) : diState :=
  match threads s t with
  | pcIdle | pcReturned _ _ | pcPanic => s
  | pcEntry =>
      match di with
      | diHandler handler => set_pc t (pcReturned (Some handler) None) s
      | diBootstrap _ _ _ =>
          (* Check if the dial handler has already been created. *)
          match dialHandler s with
          | Some h => set_pc t (pcReturned (Some h) None) s
          | None => set_pc t pcResolve s
          end
      end
  | pcResolve =>
      match di with
      | diHandler _ => s
      | diBootstrap u opts resolvers =>
          let (res, tr') :=
            bootstrap_ResolveDialContext u (Timeout opts) resolvers
              (PreferIPv6 opts) (events s) in
          let p :=
            match res with
            | inl resolveErr =>
                pcReturned None
                  (Some (wrapError "creating dial handler: %w" [] resolveErr))
            | inr h => pcCAS h
            end in
          mkDiState (dialHandler s) (<[t := p]> (threads s)) tr'
            (<[t := S (resolutions s t)]> (resolutions s))
      end
  | pcCAS h =>
      match dialHandler s with
      | None =>
          mkDiState (Some h) (<[t := pcReturned (Some h) None]> (threads s))
            (events s) (resolutions s)
      | Some _ =>
          (* The dial handler has just been created by another exchange. *)
          set_pc t pcReload s
      end
  | pcReload =>
      match dialHandler s with
      | Some h => set_pc t (pcReturned (Some h) None) s
      | None => set_pc t pcPanic s
      end
  end.

Definition di_action (di : DialerInitializer) (s : diState) (a : action)
  : diState :=
  match a with
  | Call t => if in_call (threads s t) then s else set_pc t pcEntry s
  | Step t => di_step di t s
  end.

Definition run (di : DialerInitializer) (sched : list action) (s : diState)
  : diState :=
  foldl (di_action di) s sched.

(** One whole invocation by goroutine [t] with nothing in between. *)
Definition invoke (t : nat) : list action :=
  [Call t; Step t; Step t; Step t; Step t].

(** *** Specification-level views of the two loops *)

(** The upstream-backed members of a chain, in order. *)
Definition owned (resolvers : list Resolver) : list upstreamResolver :=
  omap (fun r => match r with upsResolver r => Some r | netResolver => None end)
       resolvers.

(** What closing [rs] one after the other answers, from history [tr] on. *)
Fixpoint close_results (tr : list Event) (rs : list upstreamResolver)
  : list (option error) :=
  match rs with
  | [] => []
  | r :: rest =>
      let res := Close_result world tr r in
      res :: close_results (tr ++ [EvClose r res]) rest
  end.

(** [builds opts tr boots rs tr']: from history [tr], every non-empty entry of
    [boots] is turned into an upstream-backed resolver without error; [rs] is
    the chain and [tr'] the history afterwards. *)
Inductive builds (opts : Options)
  : list Event -> list string -> list Resolver -> list Event -> Prop :=
| builds_nil tr : builds opts tr [] [] tr
| builds_net tr rest rs tr' :
    builds opts tr rest rs tr' ->
    builds opts tr (EmptyString :: rest) (netResolver :: rs) tr'
| builds_ups tr boot rest r rs tr' :
    boot <> EmptyString ->
    NewUpstreamResolver_result world tr boot opts = inr r ->
    builds opts (tr ++ [EvNewUpstreamResolver boot opts (inr r)]) rest rs tr' ->
    builds opts tr (boot :: rest) (upsResolver r :: rs) tr'.

(** The construction events of a successful prefix. *)
Definition construct_events (opts : Options) (boots : list string)
    (rs : list upstreamResolver) : list Event :=
  zip_with (fun boot r => EvNewUpstreamResolver boot opts (inr r))
           (filter (fun boot => boot <> EmptyString) boots) rs.

Lemma is_empty_true (s : string) : is_empty s = true <-> s = EmptyString.
Proof. destruct s; simpl; split; congruence. Qed.

Lemma is_empty_false (s : string) : is_empty s = false <-> s <> EmptyString.
Proof. destruct s; simpl; split; congruence. Qed.

Lemma owned_app (rs1 rs2 : list Resolver) : owned (rs1 ++ rs2) = owned rs1 ++ owned rs2.
Proof. unfold owned. apply omap_app. Qed.

Lemma length_close_results (rs : list upstreamResolver) :
  forall tr, length (close_results tr rs) = length rs.
Proof. induction rs as [|r rs IH]; intros tr; simpl; [done|]. by rewrite IH. Qed.

Lemma closeBoots_loop_spec (rs : list upstreamResolver) :
  forall errs tr,
    closeBoots_loop rs errs tr =
    (errs ++ close_results tr rs, tr ++ zip_with EvClose rs (close_results tr rs)).
Proof.
  induction rs as [|r rs IH]; intros errs tr; simpl.
  - unfold ret. by rewrite !app_nil_r.
  - unfold bind, upstreamResolver_Close. rewrite IH.
    by rewrite <- !app_assoc.
Qed.

Lemma call_closeBootsFunc (cbs : list upstreamResolver) (tr : list Event) :
  call_closeFunc (closeBootsFunc cbs) tr =
  (errors_Join (close_results tr cbs),
   tr ++ zip_with EvClose cbs (close_results tr cbs)).
Proof.
  unfold call_closeFunc, bind. by rewrite closeBoots_loop_spec.
Qed.

Lemma builds_length opts tr boots rs tr' :
  builds opts tr boots rs tr' -> length rs = length boots.
Proof. induction 1; simpl; congruence. Qed.

Lemma builds_events opts tr boots rs tr' :
  builds opts tr boots rs tr' ->
  tr' = tr ++ construct_events opts boots (owned rs).
Proof.
  unfold construct_events.
  induction 1 as [tr|tr rest rs tr' _ IH|tr boot rest r rs tr' Hne Hr _ IH].
  - by rewrite app_nil_r.
  - rewrite IH. rewrite filter_cons_False by (intros Hc; by apply Hc). done.
  - rewrite IH. rewrite filter_cons_True by done. simpl.
    by rewrite <- app_assoc.
Qed.

Lemma builds_lookup opts tr boots rs tr' :
  builds opts tr boots rs tr' ->
  forall i boot, boots !! i = Some boot ->
    (boot = EmptyString -> rs !! i = Some netResolver) /\
    (boot <> EmptyString ->
       exists r tr_i,
         rs !! i = Some (upsResolver r) /\
         NewUpstreamResolver_result world tr_i boot opts = inr r /\
         EvNewUpstreamResolver boot opts (inr r) ∈ drop (length tr) tr').
Proof.
  induction 1 as [tr|tr rest rs tr' Hb IH|tr boot0 rest r rs tr' Hne Hr Hb IH];
    intros i boot Hi.
  - by rewrite lookup_nil in Hi.
  - destruct i as [|i]; simpl in Hi.
    + injection Hi as <-. split; [done|]. by intros [].
    + apply (IH i boot Hi).
  - pose proof (builds_events _ _ _ _ _ Hb) as Htr'.
    destruct i as [|i]; simpl in Hi.
    + injection Hi as <-. split; [by intros ->|]. intros _.
      exists r, tr. split; [done|]. split; [done|].
      rewrite Htr'. rewrite <- app_assoc, drop_app_length. simpl.
      apply list_elem_of_here.
    + destruct (IH i boot Hi) as [IH1 IH2]. split; [done|].
      intros Hb'. destruct (IH2 Hb') as (r' & tr_i & Hl & Ho & Hin).
      exists r', tr_i. split; [done|]. split; [done|].
      rewrite Htr' in Hin |- *. rewrite drop_app_length in Hin.
      rewrite <- app_assoc, drop_app_length. simpl.
      by apply list_elem_of_further.
Qed.

Lemma newResolvers_loop_ok opts tr boots rs' tr' :
  builds opts tr boots rs' tr' ->
  forall i rs cbs,
    newResolvers_loop opts i boots rs cbs tr =
    ((rs ++ rs', cbs ++ owned rs', None), tr').
Proof.
  induction 1 as [tr|tr rest rs' tr' _ IH|tr boot rest r rs' tr' Hne Hr _ IH];
    intros i rs cbs; simpl.
  - unfold ret, owned. simpl. by rewrite !app_nil_r.
  - rewrite IH. unfold owned. simpl. by rewrite <- app_assoc.
  - apply is_empty_false in Hne. rewrite Hne.
    unfold bind, NewUpstreamResolver. rewrite Hr, IH. unfold owned. simpl.
    by rewrite <- !app_assoc.
Qed.

Lemma newResolvers_loop_fail opts tr pre rs' tr1 boot post cause :
  builds opts tr pre rs' tr1 ->
  boot <> EmptyString ->
  NewUpstreamResolver_result world tr1 boot opts = inl cause ->
  forall i rs cbs,
    newResolvers_loop opts i (pre ++ boot :: post) rs cbs tr =
    (([], cbs ++ owned rs',
      Some (wrapError "preparing bootstrap resolver at index %d: %w"
              [ArgD (i + length pre)] cause)),
     tr1 ++ [EvNewUpstreamResolver boot opts (inl cause)]).
Proof.
  intros Hb Hne Hc.
  induction Hb as [tr|tr rest rs' tr' _ IH|tr b rest r rs' tr' Hb Hr _ IH];
    intros i rs cbs; simpl.
  - apply is_empty_false in Hne. rewrite Hne.
    unfold bind, NewUpstreamResolver. rewrite Hc. unfold ret, owned. simpl.
    by rewrite app_nil_r, Nat.add_0_r.
  - rewrite (IH Hc). unfold owned. simpl. by rewrite Nat.add_succ_r.
  - apply is_empty_false in Hb. rewrite Hb.
    unfold bind, NewUpstreamResolver. rewrite Hr, (IH Hc). unfold owned. simpl.
    by rewrite <- app_assoc, Nat.add_succ_r.
Qed.

(** Every run of the loop is of one of the two kinds. *)
Lemma newResolvers_loop_cases opts boots :
  forall tr,
    (exists rs tr', builds opts tr boots rs tr') \/
    (exists pre boot post rs tr1 cause,
       boots = pre ++ boot :: post /\ boot <> EmptyString /\
       builds opts tr pre rs tr1 /\
       NewUpstreamResolver_result world tr1 boot opts = inl cause).
Proof.
  induction boots as [|boot rest IH]; intros tr.
  - left. exists [], tr. constructor.
  - destruct (is_empty boot) eqn:He.
    + apply is_empty_true in He. subst boot.
      destruct (IH tr) as [(rs & tr' & Hb)|(pre & b & post & rs & tr1 & c & -> & Hne & Hb & Hc)].
      * left. exists (netResolver :: rs), tr'. by constructor.
      * right. exists (EmptyString :: pre), b, post, (netResolver :: rs), tr1, c.
        split_and!; [done|done| by constructor |done].
    + apply is_empty_false in He.
      destruct (NewUpstreamResolver_result world tr boot opts) as [cause|r] eqn:Hr.
      * right. exists [], boot, rest, [], tr, cause.
        split_and!; [done|done|constructor|done].
      * destruct (IH (tr ++ [EvNewUpstreamResolver boot opts (inr r)]))
          as [(rs & tr' & Hb)|(pre & b & post & rs & tr1 & c & -> & Hne & Hb & Hc)].
        -- left. exists (upsResolver r :: rs), tr'. by constructor.
        -- right. exists (boot :: pre), b, post, (upsResolver r :: rs), tr1, c.
           split_and!; [done|done| by constructor |done].
Qed.

Lemma close_results_lookup (rs : list upstreamResolver) :
  forall tr k r,
    rs !! k = Some r ->
    close_results tr rs !! k =
    Some (Close_result world
            (tr ++ take k (zip_with EvClose rs (close_results tr rs))) r).
Proof.
  induction rs as [|r0 rs IH]; intros tr k r Hk.
  - by rewrite lookup_nil in Hk.
  - destruct k as [|k]; simpl in *.
    + injection Hk as ->. by rewrite app_nil_r.
    + rewrite (IH _ _ _ Hk). by rewrite <- app_assoc.
Qed.

Lemma errors_Join_keeps (results : list (option error)) (e : error) :
  Some e ∈ results ->
  exists es, errors_Join results = Some (joinError es) /\ e ∈ es.
Proof.
  intros Hin. unfold errors_Join.
  assert (e ∈ omap id results) as He.
  { apply list_elem_of_omap. exists (Some e). by split. }
  destruct (omap id results) as [|e0 es] eqn:Hes.
  - by apply elem_of_nil in He.
  - exists (e0 :: es). by split.
Qed.

Lemma errors_Join_pair (e : error) (results : list (option error)) :
  errors_Join [Some e; errors_Join results] =
  Some (joinError (e :: match omap id results with
                        | [] => []
                        | es => [joinError es]
                        end)).
Proof.
  unfold errors_Join. simpl. by destruct (omap id results).
Qed.

Lemma newResolvers_ok opts tr rs tr' :
  Bootstrap opts <> [] ->
  builds opts tr (Bootstrap opts) rs tr' ->
  newResolvers opts tr = ((rs, closeBootsFunc (owned rs), None), tr').
Proof.
  intros Hne Hb. unfold newResolvers.
  destruct (Bootstrap opts) as [|b bs] eqn:Hbs; [done|].
  unfold bind. by rewrite (newResolvers_loop_ok _ _ _ _ _ Hb).
Qed.

Lemma newResolvers_fail opts tr pre boot post rs tr1 cause :
  Bootstrap opts = pre ++ boot :: post ->
  boot <> EmptyString ->
  builds opts tr pre rs tr1 ->
  NewUpstreamResolver_result world tr1 boot opts = inl cause ->
  newResolvers opts tr =
  (([], closeBootsFunc (owned rs),
    Some (wrapError "preparing bootstrap resolver at index %d: %w"
            [ArgD (length pre)] cause)),
   tr1 ++ [EvNewUpstreamResolver boot opts (inl cause)]).
Proof.
  intros Hbs Hne Hb Hc. unfold newResolvers. rewrite Hbs.
  destruct (pre ++ boot :: post) as [|b bs] eqn:Hl.
  { by destruct pre. }
  rewrite <- Hl. unfold bind.
  by rewrite (newResolvers_loop_fail _ _ _ _ _ _ post _ Hb Hne Hc).
Qed.

(** A run of [newResolvers] that reports no error built the whole chain. *)
Lemma newResolvers_inv opts tr resolvers closeBoot tr' :
  Bootstrap opts <> [] ->
  newResolvers opts tr = ((resolvers, closeBoot, None), tr') ->
  builds opts tr (Bootstrap opts) resolvers tr' /\
  closeBoot = closeBootsFunc (owned resolvers).
Proof.
  intros Hne Hrun.
  destruct (newResolvers_loop_cases opts (Bootstrap opts) tr)
    as [(rs & tr1 & Hb)|(pre & b & post & rs & tr1 & c & Hbs & Hn & Hb & Hc)].
  - rewrite (newResolvers_ok _ _ _ _ Hne Hb) in Hrun.
    injection Hrun as <- <- <-. by split.
  - rewrite (newResolvers_fail _ _ _ _ _ _ _ _ Hbs Hn Hb Hc) in Hrun.
    discriminate.
Qed.

(** Where no construction fails, every list of entries is built. *)
Lemma builds_total (opts : Options) (boots : list string) :
  (forall tr boot, exists r, NewUpstreamResolver_result world tr boot opts = inr r) ->
  forall tr, exists rs tr', builds opts tr boots rs tr'.
Proof.
  intros Hok. induction boots as [|boot rest IH]; intros tr.
  - exists [], tr. constructor.
  - destruct (is_empty boot) eqn:He.
    + apply is_empty_true in He. subst boot.
      destruct (IH tr) as (rs & tr' & Hb).
      exists (netResolver :: rs), tr'. by constructor.
    + apply is_empty_false in He. destruct (Hok tr boot) as [r Hr].
      destruct (IH (tr ++ [EvNewUpstreamResolver boot opts (inr r)]))
        as (rs & tr' & Hb).
      exists (upsResolver r :: rs), tr'. by constructor.
Qed.

(** C8.  The bootstrap chain built by [newResolvers]: with no bootstrap entry
    it is the single system-default resolver.  Otherwise, when
    [NewUpstreamResolver] answers every non-empty entry, in the order of the
    entries, with a resolver ([builds]), [newResolvers] returns without error
    the chain of these resolvers, with the system-default resolver at every
    empty entry, and the operation that closes them; in particular it returns
    a chain without error when no construction can fail.  And a chain
    returned without error is built in that way: it has one resolver per
    entry in the order of the entries, the system-default resolver at every
    empty entry and, at every other entry, the upstream-backed resolver that
    [NewUpstreamResolver] returned for that entry's address. *)
Theorem newResolvers_chain_shape (opts : Options) (tr : list Event) :
  (Bootstrap opts = [] ->
     newResolvers opts tr = (([netResolver], nopClose, None), tr)) /\
  (forall rs tr',
     Bootstrap opts <> [] ->
     builds opts tr (Bootstrap opts) rs tr' ->
     newResolvers opts tr = ((rs, closeBootsFunc (owned rs), None), tr')) /\
  ((forall tr0 boot,
      exists r, NewUpstreamResolver_result world tr0 boot opts = inr r) ->
   exists resolvers closeBoot tr',
     newResolvers opts tr = ((resolvers, closeBoot, None), tr') /\
     length resolvers = Nat.max 1 (length (Bootstrap opts))) /\
  (forall resolvers closeBoot tr',
     Bootstrap opts <> [] ->
     newResolvers opts tr = ((resolvers, closeBoot, None), tr') ->
     builds opts tr (Bootstrap opts) resolvers tr' /\
     length resolvers = length (Bootstrap opts) /\
     forall i boot,
       Bootstrap opts !! i = Some boot ->
       (boot = EmptyString -> resolvers !! i = Some netResolver) /\
       (boot <> EmptyString ->
          exists r tr_i,
            resolvers !! i = Some (upsResolver r) /\
            NewUpstreamResolver_result world tr_i boot opts = inr r /\
            EvNewUpstreamResolver boot opts (inr r) ∈ drop (length tr) tr')).
Proof.
  split_and!.
  - intros Hnil. unfold newResolvers. by rewrite Hnil.
  - intros rs tr' Hne Hb. by apply newResolvers_ok.
  - intros Hok. destruct (Bootstrap opts) as [|b bs] eqn:Hbs.
    + exists [netResolver], nopClose, tr. unfold newResolvers.
      by rewrite Hbs.
    + destruct (builds_total opts (Bootstrap opts) Hok tr) as (rs & tr' & Hb).
      exists rs, (closeBootsFunc (owned rs)), tr'. split.
      * apply newResolvers_ok; [by rewrite Hbs|done].
      * apply builds_length in Hb. by rewrite Hb, Hbs.
  - intros resolvers closeBoot tr' Hne Hrun.
    destruct (newResolvers_inv _ _ _ _ _ Hne Hrun) as [Hb _].
    split_and!.
    + done.
    + by apply builds_length in Hb.
    + intros i boot Hi. by apply (builds_lookup _ _ _ _ _ Hb).
Qed.

(** C5.  The close operation returned with a chain that was built without
    error calls [Close] on every upstream-backed resolver of the chain, in
    order and whatever the earlier calls answered, and returns the join of
    all their errors; system-default resolvers are not closed. *)
Theorem closeBoot_closes_all (opts : Options) (tr tr' : list Event)
    (resolvers : list Resolver) (closeBoot : closeFunc) :
  newResolvers opts tr = ((resolvers, closeBoot, None), tr') ->
  forall tr2,
    let results := close_results tr2 (owned resolvers) in
    call_closeFunc closeBoot tr2 =
      (errors_Join results, tr2 ++ zip_with EvClose (owned resolvers) results) /\
    length results = length (owned resolvers) /\
    (forall k r,
       owned resolvers !! k = Some r ->
       results !! k =
       Some (Close_result world
               (tr2 ++ take k (zip_with EvClose (owned resolvers) results)) r)) /\
    (forall e, Some e ∈ results ->
       exists es, errors_Join results = Some (joinError es) /\ e ∈ es).
Proof.
  intros Hrun tr2 results.
  split; [|split; [apply length_close_results|split]].
  - destruct (Bootstrap opts) as [|b bs] eqn:Hbs.
    + unfold newResolvers in Hrun. rewrite Hbs in Hrun.
      injection Hrun as <- <- <-. subst results. simpl. unfold ret.
      by rewrite app_nil_r.
    + assert (Bootstrap opts <> []) as Hne by (by rewrite Hbs).
      destruct (newResolvers_inv _ _ _ _ _ Hne Hrun) as [_ ->].
      apply call_closeBootsFunc.
  - intros k r Hk. by apply close_results_lookup.
  - intros e He. by apply errors_Join_keeps.
Qed.

(** C3.  When the entries before index [length pre] are built without error
    and the construction at that index fails with [cause], [newResolvers]
    stops there and [newDialerInitializer] closes every resolver built so
    far: the history holds the constructions of the earlier entries, the
    failed one and then one [Close] per built resolver, nothing for the later
    entries; the error names the index, wraps [cause] and is joined with
    every close error. *)
Theorem bootstrap_failure_unwinds (u : URL) (opts : Options)
    (tr tr1 : list Event) (host : string) (port : N) (perr cause : error)
    (pre post : list string) (boot : string) (rs : list Resolver) :
  netutil_SplitHostPort (Host u) = inr (host, port) ->
  ServerIPAddrs opts = [] ->
  netip_ParseAddr host = Some perr ->
  Bootstrap opts = pre ++ boot :: post ->
  boot <> EmptyString ->
  builds opts tr pre rs tr1 ->
  NewUpstreamResolver_result world tr1 boot opts = inl cause ->
  let failed :=
    wrapError "preparing bootstrap resolver at index %d: %w"
      [ArgD (length pre)] cause in
  let tr2 := tr1 ++ [EvNewUpstreamResolver boot opts (inl cause)] in
  let results := close_results tr2 (owned rs) in
  tr1 = tr ++ construct_events opts pre (owned rs) /\
  newResolvers opts tr = (([], closeBootsFunc (owned rs), Some failed), tr2) /\
  newDialerInitializer u opts tr =
    ((None, nopClose,
      Some (joinError (failed :: match omap id results with
                                 | [] => []
                                 | es => [joinError es]
                                 end))),
     tr2 ++ zip_with EvClose (owned rs) results) /\
  length results = length (owned rs).
Proof.
  intros Hsplit Hips Hparse Hbs Hne Hb Hc failed tr2 results.
  pose proof (newResolvers_fail _ _ _ _ _ _ _ _ Hbs Hne Hb Hc) as Hnr.
  split; [by apply builds_events|]. split; [done|].
  split; [|apply length_close_results].
  unfold newDialerInitializer. rewrite Hsplit, Hips. simpl. rewrite Hparse.
  unfold bind at 1. rewrite Hnr.
  unfold bind. rewrite call_closeBootsFunc. unfold ret.
  by rewrite errors_Join_pair.
Qed.

(** *** The invocation machine *)

Lemma threads_set_pc_eq (t : nat) (p : pc) (s : diState) :
  threads (set_pc t p s) t = p.
Proof. apply fn_lookup_insert. Qed.

Lemma threads_set_pc_ne (t t' : nat) (p : pc) (s : diState) :
  t <> t' -> threads (set_pc t p s) t' = threads s t'.
Proof. intros Hne. by apply fn_lookup_insert_ne. Qed.

Lemma di_step_not_in_call (di : DialerInitializer) (t : nat) (s : diState) :
  in_call (threads s t) = false -> di_step di t s = s.
Proof. unfold di_step. by destruct (threads s t). Qed.

Lemma run_cons (di : DialerInitializer) (a : action) (sched : list action)
    (s : diState) :
  run di (a :: sched) s = run di sched (di_action di s a).
Proof. done. Qed.

Lemma run_app (di : DialerInitializer) (sched1 sched2 : list action)
    (s : diState) :
  run di (sched1 ++ sched2) s = run di sched2 (run di sched1 s).
Proof. unfold run. apply foldl_app. Qed.

(** Splits on whether the goroutine looked at is the one that moves. *)
Ltac same_thread t t' :=
  destruct (decide (t = t')) as [<-|?];
  [rewrite ?fn_lookup_insert | rewrite ?fn_lookup_insert_ne by done].

(** Once set, the cell keeps its value. *)
Lemma di_action_cell_stable (di : DialerInitializer) (s : diState)
    (a : action) (h : DialHandler) :
  dialHandler s = Some h -> dialHandler (di_action di s a) = Some h.
Proof.
  intros Hset. destruct a as [t|t]; simpl.
  - by destruct (in_call (threads s t)).
  - unfold di_step.
    destruct (threads s t); destruct di; simpl; rewrite ?Hset; done.
Qed.

Lemma run_cell_stable (di : DialerInitializer) (sched : list action)
    (h : DialHandler) :
  forall s, dialHandler s = Some h -> dialHandler (run di sched s) = Some h.
Proof.
  induction sched as [|a sched IH]; intros s Hset; [done|].
  rewrite run_cons. by apply IH, di_action_cell_stable.
Qed.

(** Where a goroutine that was not in a call when the cell was seen set can
    be afterwards: where it was ([p0]), at the entry of a new call, or back
    from one with the stored handler. *)
Definition after_set (h : DialHandler) (p0 p : pc) : Prop :=
  p = p0 \/ p = pcEntry \/ p = pcReturned (Some h) None.

Lemma di_action_after_set (u : URL) (opts : Options) (resolvers : list Resolver)
    (s : diState) (a : action) (h : DialHandler) (t : nat) (p0 : pc) :
  dialHandler s = Some h ->
  in_call p0 = false ->
  after_set h p0 (threads s t) ->
  let s' := di_action (diBootstrap u opts resolvers) s a in
  after_set h p0 (threads s' t) /\ resolutions s' t = resolutions s t.
Proof.
  intros Hset Hp0 Hafter. unfold after_set in *.
  destruct a as [t'|t']; simpl.
  - destruct (in_call (threads s t')) eqn:Hin; [by split|].
    simpl. split; [|done]. same_thread t' t; [by right; left|done].
  - unfold di_step. rewrite Hset.
    destruct (threads s t') eqn:Hp; simpl; try (by split).
    + split; [|done]. same_thread t' t; [by right; right|done].
    + same_thread t' t; [|by split].
      exfalso. rewrite Hp in Hafter.
      destruct Hafter as [<-|[?|?]]; done.
    + split; [|done]. same_thread t' t; [|done].
      exfalso. rewrite Hp in Hafter.
      destruct Hafter as [<-|[?|?]]; done.
    + split; [|done]. same_thread t' t; [|done].
      exfalso. rewrite Hp in Hafter.
      destruct Hafter as [<-|[?|?]]; done.
Qed.

Lemma run_after_set (u : URL) (opts : Options) (resolvers : list Resolver)
    (sched : list action) (h : DialHandler) (t : nat) (p0 : pc) :
  in_call p0 = false ->
  forall s,
    dialHandler s = Some h ->
    after_set h p0 (threads s t) ->
    let s' := run (diBootstrap u opts resolvers) sched s in
    after_set h p0 (threads s' t) /\ resolutions s' t = resolutions s t.
Proof.
  intros Hp0. induction sched as [|a sched IH]; intros s Hset Hafter.
  - by split.
  - rewrite run_cons.
    destruct (di_action_after_set u opts resolvers s a h t p0 Hset Hp0 Hafter)
      as [Hafter' Hres].
    destruct (IH _ (di_action_cell_stable _ _ a _ Hset) Hafter') as [? Hres'].
    split; [done|]. by rewrite Hres'.
Qed.

(** A goroutine that is not past the first load of a call. *)
Definition at_start (p : pc) : Prop := in_call p = false \/ p = pcEntry.

Lemma di_action_quiet (u : URL) (opts : Options) (resolvers : list Resolver)
    (s : diState) (a : action) (h : DialHandler) :
  dialHandler s = Some h ->
  (forall t, at_start (threads s t)) ->
  let s' := di_action (diBootstrap u opts resolvers) s a in
  events s' = events s /\ (forall t, at_start (threads s' t)).
Proof.
  intros Hset Hfresh. unfold at_start in *. destruct a as [t'|t']; simpl.
  - destruct (in_call (threads s t')) eqn:Hin; [by split|].
    simpl. split; [done|]. intros t. same_thread t' t; [by right|done].
  - unfold di_step. rewrite Hset. specialize (Hfresh t') as Ht'.
    destruct (threads s t') eqn:Hp; simpl; try (by split);
      try (destruct Ht' as [?|?]; done).
    split; [done|]. intros t. same_thread t' t; [by left|done].
Qed.

Lemma run_quiet (u : URL) (opts : Options) (resolvers : list Resolver)
    (sched : list action) (h : DialHandler) :
  forall s,
    dialHandler s = Some h ->
    (forall t, at_start (threads s t)) ->
    events (run (diBootstrap u opts resolvers) sched s) = events s.
Proof.
  induction sched as [|a sched IH]; intros s Hset Hfresh; [done|].
  rewrite run_cons.
  destruct (di_action_quiet u opts resolvers s a h Hset Hfresh) as [Hev Hf].
  rewrite (IH _ (di_action_cell_stable _ _ a _ Hset) Hf). done.
Qed.

(** One whole invocation with the cell set. *)
Lemma invoke_set (u : URL) (opts : Options) (resolvers : list Resolver)
    (s : diState) (h : DialHandler) (t : nat) :
  dialHandler s = Some h ->
  in_call (threads s t) = false ->
  run (diBootstrap u opts resolvers) (invoke t) s =
  set_pc t (pcReturned (Some h) None) (set_pc t pcEntry s).
Proof.
  intros Hset Hidle. unfold invoke. rewrite run_cons. simpl di_action.
  rewrite Hidle. rewrite run_cons. simpl di_action.
  assert (di_step (diBootstrap u opts resolvers) t (set_pc t pcEntry s) =
          set_pc t (pcReturned (Some h) None) (set_pc t pcEntry s)) as ->.
  { unfold di_step. rewrite threads_set_pc_eq. simpl. by rewrite Hset. }
  set (s1 := set_pc t (pcReturned (Some h) None) (set_pc t pcEntry s)).
  assert (di_step (diBootstrap u opts resolvers) t s1 = s1) as Hstay.
  { apply di_step_not_in_call. unfold s1. by rewrite threads_set_pc_eq. }
  rewrite !run_cons. simpl di_action. by rewrite !Hstay.
Qed.

(** C1.  On the slow path, from any state in which the cell holds [h]: the
    cell holds [h] after every schedule; a goroutine that was not in a call
    makes no call to [bootstrap.ResolveDialContext] and is only ever where it
    was, at the entry of a new call, or back from one with [h] and no error;
    when no goroutine was past the first load of a call, nothing is added to
    the history; and a whole invocation returns [h] with no error and leaves
    the history as it is. *)
Theorem dialHandler_memoized (u : URL) (opts : Options)
    (resolvers : list Resolver) (s : diState) (h : DialHandler)
    (sched : list action) :
  dialHandler s = Some h ->
  let di := diBootstrap u opts resolvers in
  let s' := run di sched s in
  dialHandler s' = Some h /\
  (forall t,
     in_call (threads s t) = false ->
     resolutions s' t = resolutions s t /\
     (threads s' t = threads s t \/ threads s' t = pcEntry \/
      threads s' t = pcReturned (Some h) None)) /\
  ((forall t, in_call (threads s t) = false \/ threads s t = pcEntry) ->
   events s' = events s) /\
  (forall t,
     in_call (threads s' t) = false ->
     let s'' := run di (invoke t) s' in
     threads s'' t = pcReturned (Some h) None /\
     dialHandler s'' = Some h /\
     events s'' = events s' /\
     resolutions s'' t = resolutions s' t).
Proof.
  intros Hset di s'.
  assert (dialHandler s' = Some h) as Hset' by (by apply run_cell_stable).
  split; [done|]. split; [|split].
  - intros t Hidle.
    destruct (run_after_set u opts resolvers sched h t (threads s t) Hidle s
                Hset) as [Hafter Hres]; [by left|].
    by split.
  - intros Hfresh. by apply (run_quiet u opts resolvers sched h).
  - intros t Hidle s''. subst s'' di.
    rewrite (invoke_set u opts resolvers s' h t Hset' Hidle).
    split; [apply threads_set_pc_eq|]. by split.
Qed.

Section SlowPath.

Variable u : URL.
Variable opts : Options.
Variable resolvers : list Resolver.

(** What [bootstrap.ResolveDialContext] answers to this initializer after
    history [tr], and the event recording a call that answered [res]. *)
Definition resolve_result (tr : list Event) : error + DialHandler :=
  ResolveDialContext_result world tr u (Timeout opts) resolvers (PreferIPv6 opts).
Definition resolve_event (res : error + DialHandler) : Event :=
  EvResolveDialContext u (Timeout opts) resolvers (PreferIPv6 opts) res.

(** [h] was answered by a call recorded in [tr]. *)
Definition resolved_in (h : DialHandler) (tr : list Event) : Prop :=
  exists pre post,
    tr = pre ++ resolve_event (inr h) :: post /\ resolve_result pre = inr h.

Lemma di_step_entry_unset (t : nat) (s : diState) :
  threads s t = pcEntry ->
  dialHandler s = None ->
  di_step (diBootstrap u opts resolvers) t s = set_pc t pcResolve s.
Proof. intros Hp Hc. unfold di_step. by rewrite Hp, Hc. Qed.

Lemma di_step_resolve (t : nat) (s : diState) :
  threads s t = pcResolve ->
  di_step (diBootstrap u opts resolvers) t s =
  mkDiState (dialHandler s)
    (<[t := match resolve_result (events s) with
            | inl resolveErr =>
                pcReturned None
                  (Some (wrapError "creating dial handler: %w" [] resolveErr))
            | inr h => pcCAS h
            end]> (threads s))
    (events s ++ [resolve_event (resolve_result (events s))])
    (<[t := S (resolutions s t)]> (resolutions s)).
Proof. intros Hp. unfold di_step. by rewrite Hp. Qed.

Lemma di_step_cas_unset (t : nat) (s : diState) (h : DialHandler) :
  threads s t = pcCAS h ->
  dialHandler s = None ->
  di_step (diBootstrap u opts resolvers) t s =
  mkDiState (Some h) (<[t := pcReturned (Some h) None]> (threads s))
    (events s) (resolutions s).
Proof. intros Hp Hc. unfold di_step. by rewrite Hp, Hc. Qed.

(** One whole invocation with the cell unset: the resolver chain is queried
    once; a failure is returned wrapped and leaves the cell unset, a handler
    is stored and returned. *)
Lemma invoke_unset (s : diState) (t : nat) :
  dialHandler s = None ->
  in_call (threads s t) = false ->
  let res := resolve_result (events s) in
  let s1 := run (diBootstrap u opts resolvers) (invoke t) s in
  events s1 = events s ++ [resolve_event res] /\
  resolutions s1 t = S (resolutions s t) /\
  match res with
  | inl e =>
      dialHandler s1 = None /\
      threads s1 t =
      pcReturned None (Some (wrapError "creating dial handler: %w" [] e))
  | inr h =>
      dialHandler s1 = Some h /\ threads s1 t = pcReturned (Some h) None
  end.
Proof.
  intros Hc Hidle res s1. subst s1.
  set (di := diBootstrap u opts resolvers).
  change (run di (invoke t) s) with
    (di_step di t (di_step di t (di_step di t (di_step di t
       (di_action di s (Call t)))))).
  cbn [di_action]. rewrite Hidle. cbv iota. subst di.
  set (sa := set_pc t pcEntry s).
  rewrite (di_step_entry_unset t sa (threads_set_pc_eq _ _ _) Hc).
  set (sb := set_pc t pcResolve sa).
  rewrite (di_step_resolve t sb (threads_set_pc_eq _ _ _)).
  change (events sb) with (events s). change (resolutions sb) with (resolutions s).
  change (dialHandler sb) with (dialHandler s). fold res.
  destruct res as [e|h].
  - set (sc := mkDiState _ _ _ _).
    assert (di_step (diBootstrap u opts resolvers) t sc = sc) as Hstay.
    { apply di_step_not_in_call. unfold sc. simpl. by rewrite fn_lookup_insert. }
    rewrite !Hstay. unfold sc. simpl. by rewrite !fn_lookup_insert.
  - set (sc := mkDiState _ _ _ _).
    assert (threads sc t = pcCAS h) as Hp.
    { unfold sc. simpl. by rewrite fn_lookup_insert. }
    rewrite (di_step_cas_unset t sc h Hp Hc).
    set (sd := mkDiState _ _ _ _).
    assert (di_step (diBootstrap u opts resolvers) t sd = sd) as Hstay.
    { apply di_step_not_in_call. unfold sd. simpl. by rewrite fn_lookup_insert. }
    rewrite !Hstay. unfold sd, sc. simpl. by rewrite !fn_lookup_insert.
Qed.

(** The cell and every handler about to be stored come from recorded,
    successful resolutions. *)
Definition memo_inv (s : diState) : Prop :=
  (forall h, dialHandler s = Some h -> resolved_in h (events s)) /\
  (forall t h, threads s t = pcCAS h -> resolved_in h (events s)).

Lemma resolved_in_snoc (h : DialHandler) (tr : list Event) (ev : Event) :
  resolved_in h tr -> resolved_in h (tr ++ [ev]).
Proof.
  intros (pre & post & -> & Hres). exists pre, (post ++ [ev]).
  split; [|done]. by rewrite <- app_assoc.
Qed.

Lemma di_action_memo_inv (s : diState) (a : action) :
  memo_inv s -> memo_inv (di_action (diBootstrap u opts resolvers) s a).
Proof.
  intros [Hcell Hcas]. destruct a as [t'|t']; simpl.
  - destruct (in_call (threads s t')) eqn:Hin; [by split|].
    split; [exact Hcell|]. simpl. intros t h.
    same_thread t' t; [done|apply Hcas].
  - unfold di_step. destruct (threads s t') eqn:Hp; try (by split).
    + destruct (dialHandler s) eqn:Hc; (split; [simpl; by rewrite Hc|]);
        simpl; intros t h; (same_thread t' t; [done|apply Hcas]).
    + simpl. split; simpl.
      * intros h Hc. by apply resolved_in_snoc, Hcell.
      * intros t h. same_thread t' t.
        -- fold (resolve_result (events s)).
           destruct (resolve_result (events s)) as [e|h'] eqn:Hres; [done|].
           intros [= ->]. exists (events s), []. by split.
        -- intros Ht. by eapply resolved_in_snoc, Hcas.
    + destruct (dialHandler s) eqn:Hc; simpl.
      * split; [simpl; by rewrite Hc|]. simpl.
        intros t h'. same_thread t' t; [done|apply Hcas].
      * split; simpl.
        -- intros h' [= <-]. by eapply Hcas.
        -- intros t h'. same_thread t' t; [done|apply Hcas].
    + destruct (dialHandler s) eqn:Hc; (split; [simpl; by rewrite Hc|]);
        simpl; intros t h; (same_thread t' t; [done|apply Hcas]).
Qed.

Lemma run_memo_inv (sched : list action) :
  forall s, memo_inv s -> memo_inv (run (diBootstrap u opts resolvers) sched s).
Proof.
  induction sched as [|a sched IH]; intros s Hinv; [done|].
  rewrite run_cons. by apply IH, di_action_memo_inv.
Qed.

(** C4.  On the slow path a failed resolution is returned wrapped, as
    [creating dial handler: cause], by the goroutine that made it and leaves
    the cell as it was, under every interleaving; an invocation that starts
    with the cell unset and fails leaves it unset, and the next invocation
    queries the resolver chain again and stores what it gets only when that
    is a handler; and whatever the schedule, a handler held by the cell was
    answered by a recorded, successful resolution. *)
Theorem resolution_failure_not_memoized (s : diState) (t : nat) (e : error) :
  dialHandler s = None ->
  in_call (threads s t) = false ->
  resolve_result (events s) = inl e ->
  let di := diBootstrap u opts resolvers in
  let wrap cause := wrapError "creating dial handler: %w" [] cause in
  let s1 := run di (invoke t) s in
  let s2 := run di (invoke t) s1 in
  (threads s1 t = pcReturned None (Some (wrap e)) /\
   dialHandler s1 = None /\
   events s1 = events s ++ [resolve_event (inl e)]) /\
  (events s2 = events s1 ++ [resolve_event (resolve_result (events s1))] /\
   resolutions s2 t = S (S (resolutions s t)) /\
   match resolve_result (events s1) with
   | inl e2 =>
       dialHandler s2 = None /\ threads s2 t = pcReturned None (Some (wrap e2))
   | inr h =>
       dialHandler s2 = Some h /\ threads s2 t = pcReturned (Some h) None
   end) /\
  (forall s0 t0 e0,
     threads s0 t0 = pcResolve ->
     resolve_result (events s0) = inl e0 ->
     let s0' := run di [Step t0] s0 in
     threads s0' t0 = pcReturned None (Some (wrap e0)) /\
     dialHandler s0' = dialHandler s0 /\
     events s0' = events s0 ++ [resolve_event (inl e0)]) /\
  (forall tr0 sched h,
     dialHandler (run di sched (di_init tr0)) = Some h ->
     resolved_in h (events (run di sched (di_init tr0)))).
Proof.
  intros Hc Hidle Hres di wrap s1 s2.
  destruct (invoke_unset s t Hc Hidle) as (Hev1 & Hn1 & Hout1).
  fold di in Hev1, Hn1, Hout1. fold s1 in Hev1, Hn1, Hout1.
  rewrite Hres in Hev1, Hout1. destruct Hout1 as [Hc1 Hp1].
  assert (in_call (threads s1 t) = false) as Hidle1 by (by rewrite Hp1).
  destruct (invoke_unset s1 t Hc1 Hidle1) as (Hev2 & Hn2 & Hout2).
  fold di in Hev2, Hn2, Hout2. fold s2 in Hev2, Hn2, Hout2.
  split; [done|]. split; [|split].
  - split; [done|]. split; [by rewrite Hn2, Hn1|done].
  - intros s0 t0 e0 Hp0 Hres0 s0'. subst s0' di. unfold run. simpl.
    rewrite di_step_resolve by done. simpl. rewrite Hres0.
    by rewrite fn_lookup_insert.
  - intros tr0 sched h Hh.
    destruct (run_memo_inv sched (di_init tr0)) as [Hcell _]; [by split|].
    by apply Hcell.
Qed.

(** *** What invocations return, under every interleaving *)

(** What a goroutine may have returned, and what it may be about to
    dereference, given the cell. *)
Definition sound_pc (cell : option DialHandler) (p : pc) : Prop :=
  match p with
  | pcReload => is_Some cell
  | pcReturned (Some h) None => cell = Some h
  | pcReturned None (Some e) =>
      exists cause, e = wrapError "creating dial handler: %w" [] cause
  | pcReturned _ _ => False
  | pcPanic => False
  | _ => True
  end.

Definition di_sound (s : diState) : Prop :=
  forall t, sound_pc (dialHandler s) (threads s t).

Lemma sound_pc_set (p : pc) (h : DialHandler) :
  sound_pc None p -> sound_pc (Some h) p.
Proof.
  destruct p as [| | | | |[h'|] [e|]|]; simpl; try done.
Qed.

Lemma di_action_sound (s : diState) (a : action) :
  di_sound s -> di_sound (di_action (diBootstrap u opts resolvers) s a).
Proof.
  intros Hs. destruct a as [t'|t']; simpl.
  - destruct (in_call (threads s t')) eqn:Hin; [done|].
    intros t. simpl. same_thread t' t; [done|apply Hs].
  - unfold di_step. pose proof (Hs t') as Ht'.
    destruct (threads s t') eqn:Hp; try done.
    + destruct (dialHandler s) eqn:Hc; intros t; simpl; rewrite Hc;
        (same_thread t' t; [done|]); specialize (Hs t); by rewrite Hc in Hs.
    + intros t. simpl. same_thread t' t; [|apply Hs].
      fold (resolve_result (events s)).
      destruct (resolve_result (events s)); simpl; [by eexists|done].
    + destruct (dialHandler s) eqn:Hc; intros t; simpl.
      * rewrite Hc. same_thread t' t; [by eexists|].
        specialize (Hs t). by rewrite Hc in Hs.
      * same_thread t' t; [done|].
        apply sound_pc_set. specialize (Hs t). by rewrite Hc in Hs.
    + simpl in Ht'. destruct Ht' as [h Hc]. rewrite Hc.
      intros t. simpl. rewrite Hc. same_thread t' t; [done|].
      specialize (Hs t). by rewrite Hc in Hs.
Qed.

Lemma run_sound (sched : list action) :
  forall s, di_sound s -> di_sound (run (diBootstrap u opts resolvers) sched s).
Proof.
  induction sched as [|a sched IH]; intros s Hs; [done|].
  rewrite run_cons. by apply IH, di_action_sound.
Qed.

(** X1.  Whatever the interleaving of the invocations of a slow-path
    initializer: the reload after a lost compare-and-swap never finds the cell
    nil; an invocation returns either a handler and no error, and then the
    handler the cell holds, or no handler and a wrapped resolution error; so
    all invocations that return a handler return the same one. *)
Theorem invocations_agree (tr : list Event) (sched : list action) :
  let s := run (diBootstrap u opts resolvers) sched (di_init tr) in
  (forall t, threads s t <> pcPanic) /\
  (forall t h err,
     threads s t = pcReturned h err ->
     (exists hv, h = Some hv /\ err = None /\ dialHandler s = Some hv) \/
     (h = None /\
      exists cause,
        err = Some (wrapError "creating dial handler: %w" [] cause))) /\
  (forall t1 t2 h1 h2,
     threads s t1 = pcReturned (Some h1) None ->
     threads s t2 = pcReturned (Some h2) None ->
     h1 = h2).
Proof.
  intros s.
  assert (di_sound s) as Hs by (by apply run_sound).
  split; [|split].
  - intros t Hp. specialize (Hs t). by rewrite Hp in Hs.
  - intros t h err Hp. specialize (Hs t). rewrite Hp in Hs.
    destruct h as [hv|], err as [e|]; simpl in Hs; try done.
    + left. by exists hv.
    + right. destruct Hs as [cause ->]. split; [done|by exists cause].
  - intros t1 t2 h1 h2 Hp1 Hp2.
    pose proof (Hs t1) as H1. pose proof (Hs t2) as H2.
    rewrite Hp1 in H1. rewrite Hp2 in H2. simpl in *. congruence.
Qed.

Lemma di_step_cas_set (t : nat) (s : diState) (h h' : DialHandler) :
  threads s t = pcCAS h ->
  dialHandler s = Some h' ->
  di_step (diBootstrap u opts resolvers) t s = set_pc t pcReload s.
Proof. intros Hp Hc. unfold di_step. by rewrite Hp, Hc. Qed.

Lemma di_step_reload_set (t : nat) (s : diState) (h : DialHandler) :
  threads s t = pcReload ->
  dialHandler s = Some h ->
  di_step (diBootstrap u opts resolvers) t s =
  set_pc t (pcReturned (Some h) None) s.
Proof. intros Hp Hc. unfold di_step. by rewrite Hp, Hc. Qed.

(** Evaluates the fields of a state built by the steps before. *)
Ltac lookup_state :=
  cbn [threads set_pc dialHandler events resolutions di_init];
  repeat first [rewrite fn_lookup_insert
               | rewrite fn_lookup_insert_ne by done].

(** X2.  Two goroutines that both find the cell unset both query the resolver
    chain; the handler stored first wins, and the goroutine that loses the
    compare-and-swap drops its own handler and returns the stored one. *)
Theorem racing_invocations_both_resolve (tr : list Event) (t1 t2 : nat)
    (h1 h2 : DialHandler) :
  t1 <> t2 ->
  resolve_result tr = inr h1 ->
  resolve_result (tr ++ [resolve_event (inr h1)]) = inr h2 ->
  let sched :=
    [Call t1; Call t2; Step t1; Step t2; Step t1; Step t2; Step t1; Step t2;
     Step t2] in
  let s := run (diBootstrap u opts resolvers) sched (di_init tr) in
  events s = tr ++ [resolve_event (inr h1); resolve_event (inr h2)] /\
  dialHandler s = Some h1 /\
  threads s t1 = pcReturned (Some h1) None /\
  threads s t2 = pcReturned (Some h1) None /\
  resolutions s t1 = 1%nat /\ resolutions s t2 = 1%nat.
Proof.
  intros Hne Hr1 Hr2 sched s. subst s sched.
  assert (t2 <> t1) as Hne' by done.
  (* Both goroutines enter and find the cell unset. *)
  rewrite run_cons. cbn [di_action]. lookup_state. cbn [in_call].
  rewrite run_cons. cbn [di_action]. lookup_state. cbn [in_call].
  rewrite run_cons. cbn [di_action].
  rewrite di_step_entry_unset by (lookup_state; done).
  rewrite run_cons. cbn [di_action].
  rewrite di_step_entry_unset by (lookup_state; done).
  (* Both resolve. *)
  rewrite run_cons. cbn [di_action].
  rewrite di_step_resolve by (lookup_state; done). lookup_state. rewrite Hr1.
  rewrite run_cons. cbn [di_action].
  rewrite di_step_resolve by (lookup_state; done). lookup_state. rewrite Hr2.
  (* The first stores its handler, the second finds the cell set. *)
  rewrite run_cons. cbn [di_action].
  rewrite (di_step_cas_unset t1 _ h1) by (lookup_state; done). lookup_state.
  rewrite run_cons. cbn [di_action].
  rewrite (di_step_cas_set t2 _ h2 h1) by (lookup_state; done).
  rewrite run_cons. cbn [di_action].
  rewrite (di_step_reload_set t2 _ h1) by (lookup_state; done).
  unfold run. cbn [foldl]. lookup_state.
  rewrite <- app_assoc. done.
Qed.

(** The calls a schedule has goroutine [t] make. *)
Fixpoint calls_by (t : nat) (sched : list action) : nat :=
  match sched with
  | [] => 0
  | Call t' :: rest => (if decide (t' = t) then 1 else 0) + calls_by t rest
  | Step _ :: rest => calls_by t rest
  end.

(** Whether a goroutine may still query the resolver chain in the call it
    is in. *)
Definition may_resolve (p : pc) : nat :=
  match p with
  | pcEntry | pcResolve => 1
  | _ => 0
  end.

Lemma di_action_resolutions (s : diState) (a : action) (t : nat) :
  let s' := di_action (diBootstrap u opts resolvers) s a in
  (resolutions s' t + may_resolve (threads s' t) <=
   resolutions s t + may_resolve (threads s t) + calls_by t [a])%nat.
Proof.
  destruct a as [t'|t']; simpl.
  - destruct (in_call (threads s t')) eqn:Hin; [lia|]. simpl.
    destruct (decide (t' = t)) as [<-|Hne].
    + rewrite fn_lookup_insert. simpl. destruct (threads s t'); simpl in *; lia.
    + rewrite fn_lookup_insert_ne by done. lia.
  - unfold di_step.
    destruct (threads s t') eqn:Hp; try lia.
    + destruct (dialHandler s); simpl;
        (destruct (decide (t' = t)) as [<-|Hne];
         [rewrite fn_lookup_insert, Hp; simpl; lia
         |rewrite fn_lookup_insert_ne by done; lia]).
    + simpl. destruct (decide (t' = t)) as [<-|Hne].
      * rewrite !fn_lookup_insert, Hp.
        destruct (ResolveDialContext_result world (events s) u (Timeout opts)
                    resolvers (PreferIPv6 opts)); simpl; lia.
      * rewrite !fn_lookup_insert_ne by done. lia.
    + destruct (dialHandler s); simpl;
        (destruct (decide (t' = t)) as [<-|Hne];
         [rewrite fn_lookup_insert, Hp; simpl; lia
         |rewrite fn_lookup_insert_ne by done; lia]).
    + destruct (dialHandler s); simpl;
        (destruct (decide (t' = t)) as [<-|Hne];
         [rewrite fn_lookup_insert, Hp; simpl; lia
         |rewrite fn_lookup_insert_ne by done; lia]).
Qed.

Lemma run_resolutions (sched : list action) (t : nat) :
  forall s,
    let s' := run (diBootstrap u opts resolvers) sched s in
    (resolutions s' t + may_resolve (threads s' t) <=
     resolutions s t + may_resolve (threads s t) + calls_by t sched)%nat.
Proof.
  induction sched as [|a sched IH]; intros s; [simpl; lia|].
  rewrite run_cons. cbv zeta.
  pose proof (IH (di_action (diBootstrap u opts resolvers) s a)) as H1.
  pose proof (di_action_resolutions s a t) as H2. cbv zeta in H1, H2.
  assert (calls_by t (a :: sched) = calls_by t [a] + calls_by t sched)%nat as ->.
  { destruct a; simpl; lia. }
  lia.
Qed.

(** X3.  A goroutine queries the resolver chain at most once per call it
    makes, under every interleaving. *)
Theorem resolutions_bounded_by_calls (tr : list Event) (sched : list action)
    (t : nat) :
  (resolutions (run (diBootstrap u opts resolvers) sched (di_init tr)) t <=
   calls_by t sched)%nat.
Proof.
  pose proof (run_resolutions sched t (di_init tr)) as H. cbv zeta in H.
  simpl in H. lia.
Qed.

End SlowPath.

Lemma run_static_events (handler : DialHandler) (sched : list action) :
  forall s, events (run (diHandler handler) sched s) = events s.
Proof.
  unfold run. induction sched as [|a sched IH]; intros s; simpl; [done|].
  rewrite IH. destruct a as [t|t]; simpl.
  - by destruct (in_call (threads s t)).
  - unfold di_step. destruct (threads s t); try done.
    + by destruct (dialHandler s).
    + by destruct (dialHandler s).
Qed.

(** C2.  When [netutil.SplitHostPort] splits [u.Host] into a host and a
    16-bit port, and either [opts.ServerIPAddrs] is not empty or the host
    parses as an IP address, [newDialerInitializer] returns at once, without
    touching the history, the constant initializer of a handler built from
    the listed addresses joined with the port (or from [u.Host]), together
    with [nopClose]; invoking the initializer yields that handler with no
    error and adds nothing to the history.  When [u.Host] does not split in
    this way, which is the case as soon as [net.SplitHostPort] finds a port
    in it that is not a decimal 16-bit number, [newDialerInitializer] returns
    no initializer, [nopClose] and the error [invalid address: host: cause],
    and leaves the history as it is, whatever the options hold.  In both
    cases the close operation, [nopClose], does nothing. *)
Theorem newDialerInitializer_fast_path (u : URL) (opts : Options)
    (tr : list Event) :
  (forall host port,
     netutil_SplitHostPort (Host u) = inr (host, port) ->
     ServerIPAddrs opts <> [] \/ netip_ParseAddr host = None ->
     let handler :=
       match ServerIPAddrs opts with
       | [] => bootstrap_NewDialContext (Timeout opts) [Host u]
       | addrs =>
           bootstrap_NewDialContext (Timeout opts)
             (map (fun addr => netutil_JoinHostPort (IP_String addr) port) addrs)
       end in
     newDialerInitializer u opts tr =
       ((Some (diHandler handler), nopClose, None), tr) /\
     (forall sched s, events (run (diHandler handler) sched s) = events s) /\
     (forall t s,
        in_call (threads s t) = false ->
        threads (run (diHandler handler) (invoke t) s) t =
        pcReturned (Some handler) None)) /\
  (forall e,
     netutil_SplitHostPort (Host u) = inl e ->
     newDialerInitializer u opts tr =
     ((None, nopClose,
       Some (wrapError "invalid address: %s: %w" [ArgS (Host u)] e)), tr)) /\
  (forall host portStr v cause,
     net_SplitHostPort (Host u) = inr (host, portStr) ->
     strconv_ParseUint portStr 10 16 = (v, Some cause) ->
     netutil_SplitHostPort (Host u) =
     inl (wrapError "parsing port: %w" [] cause)) /\
  (forall tr2, call_closeFunc nopClose tr2 = (None, tr2)).
Proof.
  split_and!; [| | |done].
  - intros host port Hsplit Hfast handler.
    split; [|split; [apply run_static_events|]].
    + unfold newDialerInitializer. rewrite Hsplit. subst handler.
      destruct (ServerIPAddrs opts) as [|a addrs] eqn:Hips; simpl; [|done].
      destruct Hfast as [Hne|Hparse]; [done|]. by rewrite Hparse.
    + intros t s Hidle.
      change (run (diHandler handler) (invoke t) s) with
        (di_step (diHandler handler) t (di_step (diHandler handler) t
           (di_step (diHandler handler) t (di_step (diHandler handler) t
              (di_action (diHandler handler) s (Call t)))))).
      cbn [di_action]. rewrite Hidle. cbv iota.
      set (sa := set_pc t pcEntry s).
      assert (di_step (diHandler handler) t sa =
              set_pc t (pcReturned (Some handler) None) sa) as ->.
      { unfold di_step, sa. by rewrite threads_set_pc_eq. }
      set (sb := set_pc t (pcReturned (Some handler) None) sa).
      assert (di_step (diHandler handler) t sb = sb) as Hstay.
      { apply di_step_not_in_call. unfold sb. by rewrite threads_set_pc_eq. }
      rewrite !Hstay. apply threads_set_pc_eq.
  - intros e Hsplit. unfold newDialerInitializer. by rewrite Hsplit.
  - intros host portStr v cause Hsplit Hport. unfold netutil_SplitHostPort.
    by rewrite Hsplit, Hport.
Qed.

(** *** Further properties of the bootstrap chain *)

(** The history of a chain built without error: one construction per
    non-empty entry, each with the very [opts] the chain is built from. *)
Lemma builds_history opts tr boots rs tr' :
  builds opts tr boots rs tr' ->
  exists evs,
    tr' = tr ++ evs /\
    length evs = length (filter (fun boot => boot <> EmptyString) boots) /\
    Forall (fun ev => exists boot res,
              ev = EvNewUpstreamResolver boot opts res /\
              boot ∈ boots /\ boot <> EmptyString) evs.
Proof.
  induction 1 as [tr|tr rest rs tr' _ IH|tr boot rest r rs tr' Hne Hr _ IH].
  - exists []. by rewrite app_nil_r.
  - destruct IH as (evs & -> & Hlen & Hall). exists evs.
    split; [done|]. split.
    + by rewrite filter_cons_False by (intros Hc; by apply Hc).
    + eapply Forall_impl; [exact Hall|]. intros ev (b & res & -> & Hin & Hb).
      exists b, res. split; [done|]. split; [by apply list_elem_of_further|done].
  - destruct IH as (evs & -> & Hlen & Hall).
    exists (EvNewUpstreamResolver boot opts (inr r) :: evs).
    split; [by rewrite <- app_assoc|]. split.
    + rewrite filter_cons_True by done. simpl. by rewrite Hlen.
    + constructor.
      * exists boot, (inr r). split; [done|]. split; [apply list_elem_of_here|done].
      * eapply Forall_impl; [exact Hall|]. intros ev (b & res & -> & Hin & Hb).
        exists b, res. split; [done|]. split; [by apply list_elem_of_further|done].
Qed.

(** X4.  [newResolvers] returns a chain exactly when it returns no error:
    without an error the chain has one resolver per bootstrap entry (one
    resolver when there is no entry), and with an error the chain is nil and
    the error names the index of a non-empty entry. *)
Theorem newResolvers_chain_iff_no_error (opts : Options) (tr tr' : list Event)
    (resolvers : list Resolver) (closeBoot : closeFunc) (err : option error) :
  newResolvers opts tr = ((resolvers, closeBoot, err), tr') ->
  (err = None <-> resolvers <> []) /\
  (err = None -> length resolvers = Nat.max 1 (length (Bootstrap opts))) /\
  (forall e, err = Some e ->
     exists i boot cause,
       Bootstrap opts !! i = Some boot /\ boot <> EmptyString /\
       e = wrapError "preparing bootstrap resolver at index %d: %w" [ArgD i] cause).
Proof.
  intros Hrun. destruct (Bootstrap opts) as [|b bs] eqn:Hbs.
  { unfold newResolvers in Hrun. rewrite Hbs in Hrun.
    injection Hrun as <- <- <- <-. by split_and!. }
  assert (Bootstrap opts <> []) as Hne by (by rewrite Hbs).
  destruct (newResolvers_loop_cases opts (Bootstrap opts) tr)
    as [(rs & tr1 & Hb)|(pre & boot & post & rs & tr1 & c & Hsplit & Hn & Hb & Hc)].
  - rewrite (newResolvers_ok _ _ _ _ Hne Hb) in Hrun.
    injection Hrun as <- <- <- <-.
    apply builds_length in Hb. rewrite Hbs in Hb. simpl in Hb.
    split_and!; [|done|done].
    split; [|done]. intros _. by destruct rs.
  - rewrite (newResolvers_fail _ _ _ _ _ _ _ _ Hsplit Hn Hb Hc) in Hrun.
    injection Hrun as <- <- <- <-.
    split_and!; [by split|done|].
    intros e [= <-]. exists (length pre), boot, c.
    rewrite <- Hbs, Hsplit. split; [apply list_lookup_middle; done|done].
Qed.

(** The additions of [newResolvers] to the history. *)
Lemma newResolvers_events (opts : Options) (tr tr' : list Event)
    (resolvers : list Resolver) (closeBoot : closeFunc) (err : option error) :
  newResolvers opts tr = ((resolvers, closeBoot, err), tr') ->
  exists evs,
    tr' = tr ++ evs /\
    Forall (fun ev => exists boot res,
              ev = EvNewUpstreamResolver boot opts res /\
              boot ∈ Bootstrap opts /\ boot <> EmptyString) evs /\
    (length evs <=
     length (filter (fun boot => boot <> EmptyString) (Bootstrap opts)))%nat /\
    (err = None ->
     length evs =
     length (filter (fun boot => boot <> EmptyString) (Bootstrap opts))).
Proof.
  intros Hrun. destruct (Bootstrap opts) as [|b bs] eqn:Hbs.
  { unfold newResolvers in Hrun. rewrite Hbs in Hrun.
    injection Hrun as <- <- <- <-. exists []. rewrite app_nil_r.
    split_and!; [done|constructor|done|done]. }
  assert (Bootstrap opts <> []) as Hne by (by rewrite Hbs).
  rewrite <- Hbs.
  destruct (newResolvers_loop_cases opts (Bootstrap opts) tr)
    as [(rs & tr1 & Hb)|(pre & boot & post & rs & tr1 & c & Hsplit & Hn & Hb & Hc)].
  - rewrite (newResolvers_ok _ _ _ _ Hne Hb) in Hrun.
    injection Hrun as <- <- <- <-.
    destruct (builds_history _ _ _ _ _ Hb) as (evs & -> & Hlen & Hall).
    exists evs. split_and!; [done|done|by rewrite Hlen|done].
  - rewrite (newResolvers_fail _ _ _ _ _ _ _ _ Hsplit Hn Hb Hc) in Hrun.
    injection Hrun as <- <- <- <-.
    destruct (builds_history _ _ _ _ _ Hb) as (evs & -> & Hlen & Hall).
    exists (evs ++ [EvNewUpstreamResolver boot opts (inl c)]).
    rewrite Hsplit. split_and!; [by rewrite <- app_assoc| | |done].
    + apply Forall_app. split.
      * eapply Forall_impl; [exact Hall|]. intros ev (b' & res & -> & Hin & Hb').
        exists b', res. split; [done|]. split; [|done].
        apply elem_of_app. by left.
      * constructor; [|constructor]. exists boot, (inl c).
        split; [done|]. split; [|done].
        apply elem_of_app. right. apply list_elem_of_here.
    + rewrite filter_app, filter_cons_True by done.
      rewrite !length_app, Hlen. simpl. lia.
Qed.

Lemma builds_owned_length opts tr boots rs tr' :
  builds opts tr boots rs tr' ->
  length (owned rs) = length (filter (fun boot => boot <> EmptyString) boots).
Proof.
  induction 1 as [tr|tr rest rs tr' _ IH|tr boot rest r rs tr' Hne Hr _ IH].
  - done.
  - rewrite filter_cons_False by (intros Hc; by apply Hc).
    by change (owned (netResolver :: rs)) with (owned rs).
  - rewrite filter_cons_True by done.
    change (owned (upsResolver r :: rs)) with (r :: owned rs).
    simpl. by rewrite IH.
Qed.

(** X5.  All that [newResolvers] adds to the history is one call to
    [NewUpstreamResolver], with the options it was given, for each non-empty
    bootstrap entry that it tries, in the order of the entries: without an
    error these are all the non-empty entries, each tried once and answered
    with the resolver that stands in the chain; with an error they are the
    non-empty entries up to and including the one that failed, the earlier
    ones answered with the resolvers that the close operation holds.  It
    closes nothing. *)
Theorem newResolvers_history (opts : Options) (tr tr' : list Event)
    (resolvers : list Resolver) (closeBoot : closeFunc) (err : option error) :
  newResolvers opts tr = ((resolvers, closeBoot, err), tr') ->
  exists (attempted : list string) (results : list (error + upstreamResolver)),
    tr' =
      tr ++ zip_with (fun boot res => EvNewUpstreamResolver boot opts res)
              attempted results /\
    length results = length attempted /\
    match err with
    | None =>
        attempted = filter (fun boot => boot <> EmptyString) (Bootstrap opts) /\
        results = map inr (owned resolvers)
    | Some _ =>
        exists pre boot post built cause,
          Bootstrap opts = pre ++ boot :: post /\
          boot <> EmptyString /\
          attempted = filter (fun boot => boot <> EmptyString) pre ++ [boot] /\
          results = map inr built ++ [inl cause] /\
          closeBoot = closeBootsFunc built
    end.
Proof.
  intros Hrun. destruct (Bootstrap opts) as [|b bs] eqn:Hbs.
  { unfold newResolvers in Hrun. rewrite Hbs in Hrun.
    injection Hrun as <- <- <- <-. exists [], []. simpl.
    by rewrite app_nil_r. }
  assert (Bootstrap opts <> []) as Hne by (by rewrite Hbs).
  rewrite <- Hbs.
  destruct (newResolvers_loop_cases opts (Bootstrap opts) tr)
    as [(rs & tr1 & Hb)|(pre & boot & post & rs & tr1 & c & Hsplit & Hn & Hb & Hc)].
  - rewrite (newResolvers_ok _ _ _ _ Hne Hb) in Hrun.
    injection Hrun as <- <- <- <-.
    exists (filter (fun boot => boot <> EmptyString) (Bootstrap opts)),
      (map inr (owned rs)).
    split_and!; [|by rewrite length_map, (builds_owned_length _ _ _ _ _ Hb)|done|done].
    rewrite (builds_events _ _ _ _ _ Hb). unfold construct_events.
    by rewrite zip_with_fmap_r.
  - rewrite (newResolvers_fail _ _ _ _ _ _ _ _ Hsplit Hn Hb Hc) in Hrun.
    injection Hrun as <- <- <- <-.
    pose proof (builds_owned_length _ _ _ _ _ Hb) as Hlen.
    exists (filter (fun boot => boot <> EmptyString) pre ++ [boot]),
      (map inr (owned rs) ++ [inl c]).
    split_and!.
    + rewrite (builds_events _ _ _ _ _ Hb). unfold construct_events.
      rewrite zip_with_app by (by rewrite length_map, Hlen).
      by rewrite zip_with_fmap_r, <- app_assoc.
    + by rewrite !length_app, length_map, Hlen.
    + by exists pre, boot, post, (owned rs), c.
Qed.

(** X6.  The close operation has no memory: a second call closes every
    upstream-backed resolver of the chain once more, in the same order. *)
Theorem closeBoot_closes_again (opts : Options) (tr tr' : list Event)
    (resolvers : list Resolver) (closeBoot : closeFunc) :
  newResolvers opts tr = ((resolvers, closeBoot, None), tr') ->
  forall tr2,
    let first := close_results tr2 (owned resolvers) in
    let tr3 := tr2 ++ zip_with EvClose (owned resolvers) first in
    let second := close_results tr3 (owned resolvers) in
    (_ <-- call_closeFunc closeBoot ;; call_closeFunc closeBoot) tr2 =
      (errors_Join second, tr3 ++ zip_with EvClose (owned resolvers) second) /\
    length first = length (owned resolvers) /\
    length second = length (owned resolvers).
Proof.
  intros Hrun tr2 first tr3 second.
  split; [|split; apply length_close_results].
  unfold bind. destruct (Bootstrap opts) as [|b bs] eqn:Hbs.
  - unfold newResolvers in Hrun. rewrite Hbs in Hrun.
    injection Hrun as <- <- <-. subst second tr3 first. simpl. unfold ret.
    by rewrite !app_nil_r.
  - assert (Bootstrap opts <> []) as Hne by (by rewrite Hbs).
    destruct (newResolvers_inv _ _ _ _ _ Hne Hrun) as [_ ->].
    by rewrite !call_closeBootsFunc.
Qed.

(** *** The address guard of [newDialerInitializer], and [addPort] *)

Lemma net_SplitHostPort_no_colon (hostport : string) :
  colon_free hostport ->
  net_SplitHostPort hostport = inl (AddrError missingPort hostport).
Proof.
  intros Hc. unfold net_SplitHostPort.
  by apply LastIndexByteString_None in Hc as ->.
Qed.

Lemma netutil_SplitHostPort_of_split (hostport h p : string) :
  net_SplitHostPort hostport = inr (h, p) ->
  p <> EmptyString -> digits_only p = true ->
  netutil_SplitHostPort hostport =
  if decimal_value p <=? 65535 then inr (h, decimal_value p)
  else inl (wrapError "parsing port: %w" [] (rangeError "ParseUint" p)).
Proof.
  intros Hs Hne Hp. unfold netutil_SplitHostPort. rewrite Hs.
  rewrite strconv_ParseUint_decimal by done.
  destruct (decimal_value p <=? 65535) eqn:Hle; [|done].
  apply N.leb_le in Hle.
  by rewrite N.mod_small by (change (2 ^ 16) with 65536; lia).
Qed.

(** X7.  A URL host without any colon is refused, whatever the options say:
    the error is [invalid address: host: address host: missing port in
    address], and nothing is built, resolved or closed. *)
Theorem newDialerInitializer_missing_port (u : URL) (opts : Options)
    (tr : list Event) :
  colon_free (Host u) ->
  newDialerInitializer u opts tr =
  ((None, nopClose,
    Some (wrapError "invalid address: %s: %w" [ArgS (Host u)]
            (AddrError missingPort (Host u)))), tr).
Proof.
  intros Hc. unfold newDialerInitializer, netutil_SplitHostPort.
  by rewrite net_SplitHostPort_no_colon.
Qed.

(** X8.  For a URL host [h:p] with a decimal port [p]: a port above 65535 is
    refused with a range error and nothing is built; a port up to 65535 is
    used by its value, so that the addresses of the handler built from
    [opts.ServerIPAddrs] carry the port without its leading zeros, while the
    handler built for an IP-address host dials [u.Host] as it is written. *)
Theorem newDialerInitializer_port_range (u : URL) (opts : Options)
    (tr : list Event) (h p : string) :
  Host u = h +:+ ":" +:+ p ->
  colon_free h -> bracket_free h ->
  p <> EmptyString -> digits_only p = true ->
  (65535 < decimal_value p ->
   newDialerInitializer u opts tr =
   ((None, nopClose,
     Some (wrapError "invalid address: %s: %w" [ArgS (Host u)]
             (wrapError "parsing port: %w" []
                (rangeError "ParseUint" p)))), tr)) /\
  (decimal_value p <= 65535 ->
   ServerIPAddrs opts <> [] ->
   newDialerInitializer u opts tr =
   ((Some (diHandler
             (bootstrap_NewDialContext (Timeout opts)
                (map (fun addr =>
                        netutil_JoinHostPort (IP_String addr) (decimal_value p))
                     (ServerIPAddrs opts)))),
     nopClose, None), tr)) /\
  (decimal_value p <= 65535 ->
   ServerIPAddrs opts = [] ->
   netip_ParseAddr h = None ->
   newDialerInitializer u opts tr =
   ((Some (diHandler (bootstrap_NewDialContext (Timeout opts) [Host u])),
     nopClose, None), tr)).
Proof.
  intros Hhost Hc Hb Hne Hp.
  pose proof (netutil_SplitHostPort_decimal h p Hc Hb Hne Hp) as Hsplit.
  rewrite <- Hhost in Hsplit.
  unfold newDialerInitializer. rewrite Hsplit. split_and!.
  - intros Hlt. apply N.leb_gt in Hlt. by rewrite Hlt.
  - intros Hle Hips. apply N.leb_le in Hle. rewrite Hle.
    by destruct (ServerIPAddrs opts).
  - intros Hle Hips Hip. apply N.leb_le in Hle. rewrite Hle, Hips. simpl.
    by rewrite Hip.
Qed.

(** The assignment [u.Host = host]. *)
Definition set_Host (host : string) (u : URL) : URL :=
  mkURL (Scheme u) host (Path u) (RawQuery u) (Fragment u).

(** [addPort]: [u] is a pointer ([None] is nil), and the result is what it
    points to afterwards. *)
Definition addPort (u : option URL) (port : N) : option URL :=
  match u with
  | Some uu =>
      match net_SplitHostPort (Host uu) with
      | inl _ => Some (set_Host (netutil_JoinHostPort (Host uu) port) uu)
      | inr _ => Some uu
      end
  | None => None
  end.

(** X9.  When [u.Host] has no brackets and no port, and [netutil.JoinHostPort]
    joins it with the port as [net.JoinHostPort] does with the port's decimal
    numeral, then after [addPort] the host passes the address guard of
    [newDialerInitializer], which finds the old host and the port in it; the
    other fields of the URL are kept, and a further [addPort], with any port,
    changes nothing. *)
Theorem addPort_host_splits (uu : URL) (port : N) (e : error) :
  net_SplitHostPort (Host uu) = inl e ->
  bracket_free (Host uu) ->
  port <= 65535 ->
  netutil_JoinHostPort (Host uu) port =
    net_JoinHostPort (Host uu) (decimal port) ->
  exists uu',
    addPort (Some uu) port = Some uu' /\
    netutil_SplitHostPort (Host uu') = inr (Host uu, port) /\
    (Scheme uu', Path uu', RawQuery uu', Fragment uu') =
      (Scheme uu, Path uu, RawQuery uu, Fragment uu) /\
    (forall port', addPort (Some uu') port' = Some uu').
Proof.
  intros Hnone Hb Hport Hjoin.
  destruct (decimal_spec port) as (Hne & Hd & Hv).
  exists (set_Host (net_JoinHostPort (Host uu) (decimal port)) uu).
  assert (net_SplitHostPort (net_JoinHostPort (Host uu) (decimal port)) =
          inr (Host uu, decimal port)) as Hsplit.
  { unfold net_JoinHostPort.
    destruct (IndexByteString (Host uu) ":") eqn:Hc.
    - apply net_SplitHostPort_bracketed;
        auto using digits_only_colon_free, digits_only_bracket_free.
    - apply net_SplitHostPort_host_port;
        auto using digits_only_colon_free, digits_only_bracket_free. }
  split_and!.
  - unfold addPort. by rewrite Hnone, Hjoin.
  - cbn [set_Host Host].
    rewrite (netutil_SplitHostPort_of_split _ _ _ Hsplit Hne Hd), Hv.
    by apply N.leb_le in Hport as ->.
  - done.
  - intros port'. unfold addPort. cbn [set_Host Host]. by rewrite Hsplit.
Qed.

(** *** What [newDialerInitializer] returns and does, in every case *)

Definition is_resolution (ev : Event) : Prop :=
  match ev with
  | EvResolveDialContext _ _ _ _ _ => True
  | _ => False
  end.

Lemma call_closeFunc_history (f : closeFunc) (tr : list Event) :
  exists evs,
    snd (call_closeFunc f tr) = tr ++ evs /\
    Forall (fun ev => ~ is_resolution ev) evs.
Proof.
  destruct f as [|cbs].
  - exists []. simpl. by rewrite app_nil_r.
  - rewrite call_closeBootsFunc. eexists. split; [done|].
    generalize (close_results tr cbs). induction cbs as [|r cbs IH];
      intros [|res results]; simpl; try constructor; [by intros []|apply IH].
Qed.

(** X10.  [newDialerInitializer] returns an initializer exactly when it
    returns no error; with an error the close operation it returns is
    [nopClose]; and it never resolves anything itself: whatever it adds to the
    history is a construction or a closing of a bootstrap resolver, so that
    the host of the upstream is looked up by the first invocation at the
    earliest. *)
Theorem newDialerInitializer_defers_resolution (u : URL) (opts : Options)
    (tr tr' : list Event) (di : option DialerInitializer)
    (closeBoot : closeFunc) (err : option error) :
  newDialerInitializer u opts tr = ((di, closeBoot, err), tr') ->
  (is_Some di <-> err = None) /\
  (is_Some err -> closeBoot = nopClose) /\
  exists evs, tr' = tr ++ evs /\ Forall (fun ev => ~ is_resolution ev) evs.
Proof.
  unfold newDialerInitializer.
  assert (forall (d : DialerInitializer) (c : closeFunc),
    (Some d, c, @None error, tr) = (di, closeBoot, err, tr') ->
    c = nopClose ->
    (is_Some di <-> err = None) /\
    (is_Some err -> closeBoot = nopClose) /\
    exists evs, tr' = tr ++ evs /\ Forall (fun ev => ~ is_resolution ev) evs)
    as Hfast.
  { intros d c [= <- <- <- <-] ->. split_and!; [by split|done|].
    exists []. by rewrite app_nil_r. }
  destruct (netutil_SplitHostPort (Host u)) as [e|[host port]].
  { intros [= <- <- <- <-]. split_and!.
    - split; [by intros [? ?]|done].
    - done.
    - exists []. by rewrite app_nil_r. }
  destruct (0 <? length (ServerIPAddrs opts))%nat; [intros H; by eapply Hfast|].
  destruct (netip_ParseAddr host); [|intros H; by eapply Hfast].
  unfold bind at 1.
  destruct (newResolvers opts tr) as [[[rs cb] [nerr|]] tr1] eqn:Hnr.
  - destruct (newResolvers_events _ _ _ _ _ _ Hnr) as (evs1 & -> & Hall & _).
    unfold bind, ret.
    destruct (call_closeFunc_history cb (tr ++ evs1)) as (evs2 & Hevs2 & Hall2).
    destruct (call_closeFunc cb (tr ++ evs1)) as [cerr tr2]. simpl in Hevs2.
    intros [= <- <- <- <-]. split_and!.
    + split; [by intros [? ?]|]. unfold errors_Join. simpl.
      by destruct cerr.
    + done.
    + exists (evs1 ++ evs2). rewrite Hevs2, <- app_assoc. split; [done|].
      apply Forall_app. split; [|done].
      eapply Forall_impl; [exact Hall|].
      intros ev (b & res & -> & _) Hr. exact Hr.
  - destruct (newResolvers_events _ _ _ _ _ _ Hnr) as (evs1 & -> & Hall & _).
    intros [= <- <- <- <-]. split_and!.
    + by split.
    + by intros [? ?].
    + exists evs1. split; [done|].
      eapply Forall_impl; [exact Hall|].
      intros ev (b & res & -> & _) Hr. exact Hr.
Qed.

End Bootstrap.

(** ** From an address to an upstream *)

(** [dnsstamps.StampProtoType], a byte with five named values, and the
    fields of [dnsstamps.ServerStamp] that [parseStamp] reads. *)
Definition StampProtoType : Type := N.
Definition StampProtoTypePlain : StampProtoType := 0.
Definition StampProtoTypeDNSCrypt : StampProtoType := 1.
Definition StampProtoTypeDoH : StampProtoType := 2.
Definition StampProtoTypeTLS : StampProtoType := 3.
Definition StampProtoTypeDoQ : StampProtoType := 4.

Record ServerStamp : Type := mkServerStamp {
  ServerAddrStr : string;
  ProviderName : string;
  StampPath : string;
  Proto : StampProtoType
}.

(** What a call returns: a value, an error, or a run-time panic. *)
Inductive outcome (A : Type) : Type :=
| Ok (a : A)
| Err (e : error)
| Panic.
Arguments Ok {A} a.
Arguments Err {A} e.
Arguments Panic {A}.

(** The transport constructors, which are outside this file. *)
Inductive Transport : Type :=
| TPlain
| TDoQ
| TDoT
| TDoH
| TDNSCrypt.

(** Splits the port off a stamp's address where there is one. *)
Definition stamp_host (addr : string) : string :=
  match netutil_SplitHostPort addr with
  | inr (host, _) => host
  | inl _ => addr
  end.

(** The last colon of [addr] and what follows it. *)
Definition colon_suffix (addr : string) : option string :=
  match LastIndexByteString addr ":" with
  | Some i => Some (slice_from addr (i + 1))
  | None => None
  end.

(** The branch of [AddressToUpstream] for an address without [://]: it is
    taken as the host of a plain UDP upstream, after the port, if
    [net.SplitHostPort] finds one, has been validated. *)
Definition parseBareAddress (addr : string) : error + URL :=
  let uu := URL_lit "udp" addr EmptyString in
  match net_SplitHostPort addr with
  | inr (_, port) =>
      (* Validate port. *)
      match strconv_ParseUint port 10 16 with
      | (_, Some err) => inl (wrapError "invalid address %s: %w" [ArgS addr] err)
      | (_, None) => inr uu
      end
  | inl _ => inr uu
  end.

Section Construction.

(** [Upstream] values are abstract.  [url.Parse], [url.URL.String],
    [dnsstamps.NewServerStampFromString], [net.ParseIP] and the [String]
    method of a stamp protocol are collaborators without effects. *)
Variable Upstream : Type.
Variable url_Parse : string -> error + URL.
Variable URL_String : URL -> string.
Variable NewServerStampFromString : string -> error + ServerStamp.
Variable net_ParseIP : string -> option IP.
Variable StampProtoType_String : StampProtoType -> string.

(** One call to a transport constructor: which one, with what, and what it
    returned. *)
Record ConstructorCall : Type := mkConstructorCall {
  call_transport : Transport;
  call_url : URL;
  call_opts : option nat;
  call_result : outcome Upstream
}.

(** The heap of [Options] values and the history of constructor calls. *)
Record State : Type := mkState {
  heap : gmap nat Options;
  calls : list ConstructorCall
}.

(** The transport constructors read the [Options] they are given and answer
    depending on the history. *)
Variable newPlain : URL -> option nat -> State -> outcome Upstream.
Variable newDoQ : URL -> option nat -> State -> outcome Upstream.
Variable newDoT : URL -> option nat -> State -> outcome Upstream.
Variable newDoH : URL -> option nat -> State -> outcome Upstream.
Variable newDNSCrypt : URL -> option nat -> State -> outcome Upstream.

Definition construct (tp : Transport) : URL -> option nat -> State -> outcome Upstream :=
  match tp with
  | TPlain => newPlain
  | TDoQ => newDoQ
  | TDoT => newDoT
  | TDoH => newDoH
  | TDNSCrypt => newDNSCrypt
  end.

(** A call to the constructor [tp], recorded. *)
Definition call_constructor (tp : Transport) (uu : URL) (opts : option nat) (st : State)
  : outcome Upstream * State :=
  let r := construct tp uu opts st in
  (r, mkState (heap st) (calls st ++ [mkConstructorCall tp uu opts r])).

(** The assignment [opts.ServerIPAddrs = []net.IP{ip}] through the pointer
    [opts]. *)
Definition store_ServerIPAddrs (opts : option nat) (ip : IP) (st : State)
  : option State :=
  match opts with
  | None => None
  | Some l =>
      match heap st !! l with
      | None => None
      | Some o => Some (mkState (<[l := set_ServerIPAddrs [ip] o]> (heap st)) (calls st))
      end
  end.

Definition parseStamp (upsURL : URL) (opts : option nat) (st : State)
  : outcome Upstream * State :=
  match NewServerStampFromString (URL_String upsURL) with
  | inl err =>
      (Err (wrapError "failed to parse %s: %w" [ArgS (URL_String upsURL)] err), st)
  | inr stamp =>
      let stored : outcome State :=
        if is_empty (ServerAddrStr stamp) then Ok st
        else
          let host := stamp_host (ServerAddrStr stamp) in
          (* Parse and add to options. *)
          match net_ParseIP host with
          | None =>
              Err (fmtError "invalid server stamp address %s"
                     [ArgS (ServerAddrStr stamp)])
          | Some ip =>
              match store_ServerIPAddrs opts ip st with
              | Some st' => Ok st'
              | None => Panic
              end
          end in
      match stored with
      | Err e => (Err e, st)
      | Panic => (Panic, st)
      | Ok st =>
          (* switch stamp.Proto *)
          if Proto stamp =? StampProtoTypePlain then
            call_constructor TPlain (URL_lit "udp" (ServerAddrStr stamp) EmptyString) opts st
          else if Proto stamp =? StampProtoTypeDNSCrypt then
            call_constructor TDNSCrypt upsURL opts st
          else if Proto stamp =? StampProtoTypeDoH then
            call_constructor TDoH (URL_lit "https" (ProviderName stamp) (StampPath stamp)) opts st
          else if Proto stamp =? StampProtoTypeDoQ then
            call_constructor TDoQ (URL_lit "quic" (ProviderName stamp) (StampPath stamp)) opts st
          else if Proto stamp =? StampProtoTypeTLS then
            call_constructor TDoT (URL_lit "tls" (ProviderName stamp) EmptyString) opts st
          else
            (Err (fmtError "unsupported stamp protocol %s"
                    [ArgS (StampProtoType_String (Proto stamp))]), st)
      end
  end.

(** Splits on the [switch stamp.Proto] of [parseStamp]: [on_case] closes the
    goal of each named protocol. *)
Ltac switch_Proto on_case :=
  cbv beta iota zeta;
  repeat (match goal with
          | |- context [if (Proto ?s =? ?c) then _ else _] =>
              destruct (Proto s =? c)
          end; [on_case|]).

Definition urlToUpstream (uu : URL) (opts : option nat) (st : State)
  : outcome Upstream * State :=
  let sch := Scheme uu in
  if String.eqb sch "sdns" then parseStamp uu opts st
  else if String.eqb sch "udp" || String.eqb sch "tcp" then call_constructor TPlain uu opts st
  else if String.eqb sch "quic" then call_constructor TDoQ uu opts st
  else if String.eqb sch "tls" then call_constructor TDoT uu opts st
  else if String.eqb sch "h3" || String.eqb sch "https" then call_constructor TDoH uu opts st
  else (Err (fmtError "unsupported url scheme: %s" [ArgS sch]), st).

(** The first statement of [AddressToUpstream]: a nil [opts] is replaced by a
    pointer to a new zero value. *)
Definition default_opts (opts : option nat) (st : State) : option nat * State :=
  match opts with
  | None =>
      let l := fresh (dom (heap st)) in
      (Some l, mkState (<[l := zeroOptions]> (heap st)) (calls st))
  | Some l => (Some l, st)
  end.

(** The parse of [addr] into a URL. *)
Definition parseAddress (addr : string) : error + URL :=
  if strings_Contains addr "://" then
    (* Parse as URL. *)
    match url_Parse addr with
    | inl err => inl (wrapError "failed to parse %s: %w" [ArgS addr] err)
    | inr uu => inr uu
    end
  else
    (* Probably, plain UDP upstream defined by address or address:port. *)
    parseBareAddress addr.

Definition AddressToUpstream (addr : string) (opts : option nat) (st : State)
  : outcome Upstream * State :=
  let (opts, st) := default_opts opts st in
  match parseAddress addr with
  | inl err => (Err err, st)
  | inr uu => urlToUpstream uu opts st
  end.

(** *** What [AddressToUpstream] rejects while parsing *)

(** The addresses the parse rejects: with [://] and refused by [url.Parse],
    or without it, split by [net.SplitHostPort] into a host and a port, the
    port not a decimal 16-bit number. *)
Definition malformed (addr : string) : Prop :=
  (strings_Contains addr "://" = true /\ exists e, url_Parse addr = inl e) \/
  (strings_Contains addr "://" = false /\
   exists host port v e,
     net_SplitHostPort addr = inr (host, port) /\
     strconv_ParseUint port 10 16 = (v, Some e)).

Lemma parseBareAddress_inl (addr : string) (e : error) :
  parseBareAddress addr = inl e <->
  exists host port v cause,
    net_SplitHostPort addr = inr (host, port) /\
    strconv_ParseUint port 10 16 = (v, Some cause) /\
    e = wrapError "invalid address %s: %w" [ArgS addr] cause.
Proof.
  unfold parseBareAddress.
  destruct (net_SplitHostPort addr) as [se|[host port]] eqn:Hs.
  - split; [done|]. by intros (? & ? & ? & ? & ? & _).
  - destruct (strconv_ParseUint port 10 16) as [v [cause|]] eqn:Hp.
    + split.
      * intros [= <-]. by exists host, port, v, cause.
      * intros (h' & p' & v' & c' & [= <- <-] & Hp' & ->).
        rewrite Hp in Hp'. by injection Hp' as <- <-.
    + split; [done|].
      intros (h' & p' & v' & c' & [= <- <-] & Hp' & _).
      rewrite Hp in Hp'. discriminate.
Qed.

Lemma parseAddress_inl (addr : string) :
  (exists e, parseAddress addr = inl e) <-> malformed addr.
Proof.
  unfold parseAddress, malformed.
  destruct (strings_Contains addr "://") eqn:Hc.
  - destruct (url_Parse addr) as [pe|uu] eqn:Hu.
    + split; [intros _; left; split; [done|by exists pe]|].
      intros _. by eexists.
    + split; [by intros [e ?]|]. intros [[_ [e ?]]|[? _]]; done.
  - split.
    + intros [e He]. apply parseBareAddress_inl in He
        as (host & port & v & cause & Hs & Hp & _).
      right. split; [done|]. by exists host, port, v, cause.
    + intros [[? _]|[_ (host & port & v & cause & Hs & Hp)]]; [done|].
      eexists. apply parseBareAddress_inl. by exists host, port, v, cause.
Qed.

Lemma parseAddress_names_input (addr : string) (e : error) :
  parseAddress addr = inl e ->
  exists cause,
    e = wrapError "failed to parse %s: %w" [ArgS addr] cause \/
    e = wrapError "invalid address %s: %w" [ArgS addr] cause.
Proof.
  unfold parseAddress. destruct (strings_Contains addr "://").
  - destruct (url_Parse addr) as [pe|uu]; [|done].
    intros [= <-]. exists pe. by left.
  - intros He. apply parseBareAddress_inl in He
      as (_ & _ & _ & cause & _ & _ & ->).
    exists cause. by right.
Qed.

Lemma calls_default_opts (opts : option nat) (st : State) :
  calls (snd (default_opts opts st)) = calls st.
Proof. by destruct opts. Qed.

(** The errors that name what could not be parsed. *)
Definition parse_error (e : error) : Prop :=
  exists s cause,
    e = wrapError "failed to parse %s: %w" [ArgS s] cause \/
    e = wrapError "invalid address %s: %w" [ArgS s] cause.

(** The three ways in which an address is refused with such an error: it has
    [://] and [url.Parse] refuses it; it has [://], is a URL of scheme [sdns],
    and the stamp does not decode; it has no [://], [net.SplitHostPort] finds
    a port in it, and the port is not a decimal 16-bit number. *)
Definition rejected (addr : string) (e : error) : Prop :=
  (strings_Contains addr "://" = true /\
   exists cause,
     url_Parse addr = inl cause /\
     e = wrapError "failed to parse %s: %w" [ArgS addr] cause) \/
  (strings_Contains addr "://" = true /\
   exists uu cause,
     url_Parse addr = inr uu /\ Scheme uu = "sdns" /\
     NewServerStampFromString (URL_String uu) = inl cause /\
     e = wrapError "failed to parse %s: %w" [ArgS (URL_String uu)] cause) \/
  (strings_Contains addr "://" = false /\
   exists host port v cause,
     net_SplitHostPort addr = inr (host, port) /\
     strconv_ParseUint port 10 16 = (v, Some cause) /\
     e = wrapError "invalid address %s: %w" [ArgS addr] cause).

Lemma calls_grow (st : State) (c : ConstructorCall) :
  calls st ++ [c] <> calls st.
Proof.
  intros Heq. apply (f_equal length) in Heq.
  rewrite length_app in Heq. simpl in Heq. lia.
Qed.

Lemma call_constructor_not_silent (tp : Transport) (uu : URL)
    (opts : option nat) (st0 st : State) :
  calls st = calls st0 ->
  calls (snd (call_constructor tp uu opts st)) <> calls st0.
Proof. intros Hc. simpl. rewrite Hc. apply calls_grow. Qed.

(** An error of [urlToUpstream] that names what could not be parsed, with no
    constructor called, is the error of a stamp that does not decode. *)
Lemma urlToUpstream_parse_error (uu : URL) (opts : option nat) (st : State)
    (e : error) :
  fst (urlToUpstream uu opts st) = Err e ->
  calls (snd (urlToUpstream uu opts st)) = calls st ->
  parse_error e ->
  Scheme uu = "sdns" /\
  exists cause,
    NewServerStampFromString (URL_String uu) = inl cause /\
    e = wrapError "failed to parse %s: %w" [ArgS (URL_String uu)] cause.
Proof.
  unfold urlToUpstream.
  destruct (String.eqb_spec (Scheme uu) "sdns") as [Hs|Hs].
  - unfold parseStamp.
    destruct (NewServerStampFromString (URL_String uu)) as [cause|stamp].
    { intros [= <-] _ _. split; [done|]. by exists cause. }
    intros He Hc Hp. exfalso. revert He Hc.
    destruct (is_empty (ServerAddrStr stamp)).
    { switch_Proto
        ltac:(intros _ Hc; exact (call_constructor_not_silent _ _ _ _ _ eq_refl Hc)).
      cbn [fst]. intros [= <-] _. by destruct Hp as (? & ? & [?|?]). }
    destruct (net_ParseIP (stamp_host (ServerAddrStr stamp))) as [ip|].
    + destruct (store_ServerIPAddrs opts ip st) as [st1|] eqn:Hst; [|done].
      assert (calls st1 = calls st) as Hc1.
      { unfold store_ServerIPAddrs in Hst. destruct opts as [l|]; [|done].
        destruct (heap st !! l); [|done]. by injection Hst as <-. }
      switch_Proto
        ltac:(intros _ Hc; exact (call_constructor_not_silent _ _ _ _ _ Hc1 Hc)).
      cbn [fst]. intros [= <-] _. by destruct Hp as (? & ? & [?|?]).
    + cbn [fst]. intros [= <-] _. by destruct Hp as (? & ? & [?|?]).
  - intros He Hc Hp. exfalso. revert He Hc.
    repeat (match goal with
            | |- context [if ?b then _ else _] => destruct b
            end;
            [intros _ Hc; exact (call_constructor_not_silent _ _ _ _ _ eq_refl Hc)|]).
    cbn [fst]. intros [= <-] _. by destruct Hp as (? & ? & [?|?]).
Qed.

(** C7.  [AddressToUpstream] returns, with no transport constructor called,
    an error that names what could not be parsed ([failed to parse s: cause]
    or [invalid address s: cause]) exactly in three cases: the address has
    [://] and [url.Parse] refuses it; the address has [://], is a URL of
    scheme [sdns], and the stamp does not decode; the address has no [://],
    [net.SplitHostPort] finds a port in it, and the port is not a decimal
    16-bit number.  An address without [://] in which [net.SplitHostPort]
    finds no port is not refused: it goes to the plain constructor as the
    host, as it is written, of a [udp] URL.  The failures of the parse proper
    are the first and the third case; every address that passes it goes on to
    [urlToUpstream]. *)
Theorem AddressToUpstream_malformed (addr : string) (opts : option nat)
    (st : State) :
  (forall e,
     fst (AddressToUpstream addr opts st) = Err e /\
     calls (snd (AddressToUpstream addr opts st)) = calls st /\
     parse_error e <->
     rejected addr e) /\
  (forall se,
     strings_Contains addr "://" = false ->
     net_SplitHostPort addr = inl se ->
     AddressToUpstream addr opts st =
     call_constructor TPlain (URL_lit "udp" addr EmptyString)
       (fst (default_opts opts st)) (snd (default_opts opts st))) /\
  ((exists e, parseAddress addr = inl e) <-> malformed addr) /\
  (forall e,
     parseAddress addr = inl e ->
     (exists cause,
        e = wrapError "failed to parse %s: %w" [ArgS addr] cause \/
        e = wrapError "invalid address %s: %w" [ArgS addr] cause) /\
     fst (AddressToUpstream addr opts st) = Err e /\
     calls (snd (AddressToUpstream addr opts st)) = calls st) /\
  (forall uu,
     parseAddress addr = inr uu ->
     AddressToUpstream addr opts st =
     urlToUpstream uu (fst (default_opts opts st)) (snd (default_opts opts st))).
Proof.
  pose proof (calls_default_opts opts st) as Hcalls.
  split_and!.
  - intros e. unfold AddressToUpstream.
    destruct (default_opts opts st) as [opts' st']. simpl in Hcalls. split.
    + intros (He & Hc & Hp).
      destruct (parseAddress addr) as [e0|uu] eqn:Hparse.
      * injection He as <-. unfold parseAddress in Hparse.
        destruct (strings_Contains addr "://") eqn:Hcont.
        -- destruct (url_Parse addr) as [pe|uu] eqn:Hu; [|done].
           injection Hparse as <-. left. split; [done|]. by exists pe.
        -- apply parseBareAddress_inl in Hparse
             as (host & port & v & cause & Hs & Hport & ->).
           right; right. split; [done|]. by exists host, port, v, cause.
      * rewrite <- Hcalls in Hc.
        destruct (urlToUpstream_parse_error uu opts' st' e He Hc Hp)
          as (Hs & cause & Hdec & ->).
        right; left. unfold parseAddress in Hparse.
        destruct (strings_Contains addr "://") eqn:Hcont.
        -- split; [done|]. exists uu, cause.
           destruct (url_Parse addr) as [pe|uu']; [done|].
           injection Hparse as ->. done.
        -- unfold parseBareAddress in Hparse.
           assert (uu = URL_lit "udp" addr EmptyString) as ->.
           { destruct (net_SplitHostPort addr) as [?|[? port]];
               [by injection Hparse|].
             destruct (strconv_ParseUint port 10 16) as [? [?|]];
               [done|by injection Hparse]. }
           done.
    + intros [(Hcont & cause & Hu & ->)|[(Hcont & uu & cause & Hu & Hs & Hdec & ->)
                                       |(Hcont & host & port & v & cause & Hs & Hport & ->)]].
      * unfold parseAddress. rewrite Hcont, Hu. simpl.
        split_and!; [done|done|]. eexists _, _. by left.
      * unfold parseAddress. rewrite Hcont, Hu.
        unfold urlToUpstream. rewrite Hs. simpl.
        unfold parseStamp. rewrite Hdec. simpl.
        split_and!; [done|done|]. eexists _, _. by left.
      * unfold parseAddress, parseBareAddress. rewrite Hcont, Hs, Hport. simpl.
        split_and!; [done|done|]. eexists _, _. by right.
  - intros se Hcont Hs. unfold AddressToUpstream.
    destruct (default_opts opts st) as [opts' st'].
    unfold parseAddress, parseBareAddress. by rewrite Hcont, Hs.
  - apply parseAddress_inl.
  - intros e He. split; [by apply parseAddress_names_input|].
    unfold AddressToUpstream.
    destruct (default_opts opts st) as [opts' st']. rewrite He. by split.
  - intros uu Hu. unfold AddressToUpstream.
    destruct (default_opts opts st) as [opts' st']. by rewrite Hu.
Qed.

(** *** Calls to the transport constructors *)

(** An outcome of the code in this file: either no constructor was called
    and an error is returned, or one constructor was called with the pointer
    [opts] and its result is returned as it is. *)
Definition one_call_or_error (opts : option nat) (st : State)
    (res : outcome Upstream * State) : Prop :=
  (calls (snd res) = calls st /\ exists e, fst res = Err e) \/
  (exists tp uu,
     calls (snd res) = calls st ++ [mkConstructorCall tp uu opts (fst res)]).

Lemma call_constructor_shape (tp : Transport) (uu : URL) (opts : option nat)
    (st0 st : State) :
  calls st = calls st0 ->
  one_call_or_error opts st0 (call_constructor tp uu opts st).
Proof. intros Hc. right. exists tp, uu. simpl. by rewrite Hc. Qed.

Lemma parseStamp_shape (uu : URL) (l : nat) (st : State) :
  is_Some (heap st !! l) ->
  one_call_or_error (Some l) st (parseStamp uu (Some l) st).
Proof.
  intros [o Ho]. unfold parseStamp.
  destruct (NewServerStampFromString (URL_String uu)) as [err|stamp].
  { left. split; [done|by eexists]. }
  destruct (is_empty (ServerAddrStr stamp)).
  { switch_Proto ltac:(by apply call_constructor_shape).
    left. split; [done|by eexists]. }
  destruct (net_ParseIP (stamp_host (ServerAddrStr stamp))) as [ip|].
  - unfold store_ServerIPAddrs. rewrite Ho.
    switch_Proto ltac:(by apply call_constructor_shape).
    left. split; [done|by eexists].
  - left. split; [done|by eexists].
Qed.

Lemma urlToUpstream_shape (uu : URL) (l : nat) (st : State) :
  is_Some (heap st !! l) ->
  one_call_or_error (Some l) st (urlToUpstream uu (Some l) st).
Proof.
  intros Hl. unfold urlToUpstream.
  repeat (match goal with
          | |- context [if ?b then _ else _] => destruct b
          end; [first [by apply parseStamp_shape
                      | by apply call_constructor_shape]|]).
  left. split; [done|by eexists].
Qed.

Lemma AddressToUpstream_shape (addr : string) (l : nat) (st : State) :
  is_Some (heap st !! l) ->
  one_call_or_error (Some l) st (AddressToUpstream addr (Some l) st).
Proof.
  intros Hl. unfold AddressToUpstream. simpl.
  destruct (parseAddress addr) as [e|uu].
  - left. split; [done|by eexists].
  - by apply urlToUpstream_shape.
Qed.

Lemma fresh_loc_unused (st : State) : heap st !! fresh (dom (heap st)) = None.
Proof. apply not_elem_of_dom, is_fresh. Qed.

(** C10.  With a nil [opts], [AddressToUpstream] behaves as it does with a
    pointer to a new zero-value [Options]: the results and final states are
    the same, every transport constructor that is called receives that
    pointer, never nil, and a panic can only be the answer of such a
    constructor. *)
Theorem AddressToUpstream_nil_opts (addr : string) (st : State) :
  let l := fresh (dom (heap st)) in
  let st0 := mkState (<[l := zeroOptions]> (heap st)) (calls st) in
  let res := AddressToUpstream addr None st in
  heap st !! l = None /\
  heap st0 !! l = Some zeroOptions /\
  res = AddressToUpstream addr (Some l) st0 /\
  (forall c, c ∈ drop (length (calls st)) (calls (snd res)) ->
     call_opts c = Some l) /\
  (fst res = Panic ->
   exists tp uu,
     calls (snd res) = calls st ++ [mkConstructorCall tp uu (Some l) Panic]).
Proof.
  intros l st0 res.
  assert (heap st0 !! l = Some zeroOptions) as Hl.
  { unfold st0. simpl. apply lookup_insert_eq. }
  assert (res = AddressToUpstream addr (Some l) st0) as Hres by done.
  split; [apply fresh_loc_unused|]. split; [done|]. split; [done|].
  destruct (AddressToUpstream_shape addr l st0) as
    [[Hcalls [e He]]|(tp & uu & Hcalls)]; [by eexists|..];
    rewrite <- Hres in *; change (calls st0) with (calls st) in Hcalls.
  - split.
    + intros c. rewrite Hcalls, drop_all. by intros ?%elem_of_nil.
    + intros Hp. rewrite Hp in He. discriminate.
  - split.
    + intros c. rewrite Hcalls, drop_app_length.
      by intros ->%list_elem_of_singleton.
    + intros Hp. exists tp, uu. by rewrite Hcalls, Hp.
Qed.

(** C6.  When the decoded stamp carries a non-empty server address whose
    host part parses as the IP address [ip], [parseStamp] overwrites
    [ServerIPAddrs] of the caller's [Options] with the one-element list of
    [ip], whatever the list held before (the other fields and the other
    [Options] values of the heap are kept), before it calls a transport
    constructor with the same pointer; [AddressToUpstream] gets there for an
    address that parses to a URL of scheme [sdns]. *)
Theorem parseStamp_replaces_ServerIPAddrs (addr : string) (upsURL : URL)
    (l : nat) (o : Options) (st : State) (stamp : ServerStamp) (ip : IP) :
  heap st !! l = Some o ->
  NewServerStampFromString (URL_String upsURL) = inr stamp ->
  ServerAddrStr stamp <> EmptyString ->
  net_ParseIP (stamp_host (ServerAddrStr stamp)) = Some ip ->
  let res := parseStamp upsURL (Some l) st in
  let st1 := mkState (<[l := set_ServerIPAddrs [ip] o]> (heap st)) (calls st) in
  heap (snd res) = heap st1 /\
  (exists o', heap (snd res) !! l = Some o' /\ ServerIPAddrs o' = [ip]) /\
  (calls (snd res) = calls st \/
   exists tp uu,
     calls (snd res) = calls st ++ [mkConstructorCall tp uu (Some l) (fst res)] /\
     fst res = construct tp uu (Some l) st1) /\
  (strings_Contains addr "://" = true ->
   url_Parse addr = inr upsURL ->
   Scheme upsURL = "sdns" ->
   AddressToUpstream addr (Some l) st = res).
Proof.
  intros Hl Hstamp Hne Hip res st1.
  assert (heap (snd res) = heap st1 /\
          (calls (snd res) = calls st \/
           exists tp uu,
             calls (snd res) =
               calls st ++ [mkConstructorCall tp uu (Some l) (fst res)] /\
             fst res = construct tp uu (Some l) st1)) as [Hheap Hcalls].
  { unfold res, parseStamp. rewrite Hstamp.
    apply is_empty_false in Hne. rewrite Hne, Hip.
    unfold store_ServerIPAddrs. rewrite Hl.
    switch_Proto ltac:(split; [done|right; eexists _, _; by split]).
    split; [done|by left]. }
  split; [done|]. split; [|split].
  - exists (set_ServerIPAddrs [ip] o). rewrite Hheap. split; [|done].
    unfold st1. simpl. apply lookup_insert_eq.
  - done.
  - intros Hc Hu Hs. unfold AddressToUpstream, parseAddress. simpl.
    rewrite Hc, Hu. unfold urlToUpstream. by rewrite Hs.
Qed.

(** *** [Options.Clone] *)

(** [Clone]: [o] is a pointer, and the copy is put at a new location.
    Reading through a nil pointer panics. *)
Definition Clone (o : option nat) (st : State) : outcome nat * State :=
  match o with
  | None => (Panic, st)
  | Some l =>
      match heap st !! l with
      | None => (Panic, st)
      | Some o =>
          let clone := fresh (dom (heap st)) in
          (Ok clone,
           mkState
             (<[clone := {| Bootstrap := Bootstrap o;
                            Timeout := Timeout o;
                            ServerIPAddrs := ServerIPAddrs o;
                            HTTPVersions := HTTPVersions o;
                            VerifyServerCertificate := VerifyServerCertificate o;
                            VerifyConnection := VerifyConnection o;
                            VerifyDNSCryptCertificate := VerifyDNSCryptCertificate o;
                            InsecureSkipVerify := InsecureSkipVerify o;
                            PreferIPv6 := PreferIPv6 o;
                            QUICTracer := QUICTracer o;
                            RootCAs := RootCAs o;
                            CipherSuites := CipherSuites o |}]> (heap st))
             (calls st))
      end
  end.

(** *** What the construction does to the options *)

Lemma set_ServerIPAddrs_same (o : Options) :
  set_ServerIPAddrs (ServerIPAddrs o) o = o.
Proof. by destruct o. Qed.

(** The heap after [parseStamp]: as before, or with the address of the
    stamp stored in the options. *)
Lemma parseStamp_heap (upsURL : URL) (l : nat) (o : Options) (st : State) :
  heap st !! l = Some o ->
  heap (snd (parseStamp upsURL (Some l) st)) = heap st \/
  exists stamp ip,
    NewServerStampFromString (URL_String upsURL) = inr stamp /\
    ServerAddrStr stamp <> EmptyString /\
    net_ParseIP (stamp_host (ServerAddrStr stamp)) = Some ip /\
    heap (snd (parseStamp upsURL (Some l) st)) =
    <[l := set_ServerIPAddrs [ip] o]> (heap st).
Proof.
  intros Hl. unfold parseStamp.
  destruct (NewServerStampFromString (URL_String upsURL)) as [err|stamp] eqn:Hs;
    [by left|].
  destruct (is_empty (ServerAddrStr stamp)) eqn:He.
  { left. switch_Proto ltac:(done). done. }
  destruct (net_ParseIP (stamp_host (ServerAddrStr stamp))) as [ip|] eqn:Hip;
    [|by left].
  right. exists stamp, ip. apply is_empty_false in He.
  split_and!; [done|done|done|].
  unfold store_ServerIPAddrs. rewrite Hl. switch_Proto ltac:(done). done.
Qed.

Lemma urlToUpstream_heap (uu : URL) (l : nat) (st : State) :
  Scheme uu <> "sdns" ->
  heap (snd (urlToUpstream uu (Some l) st)) = heap st.
Proof.
  intros Hs. unfold urlToUpstream.
  destruct (String.eqb_spec (Scheme uu) "sdns") as [?|_]; [done|].
  repeat (match goal with
          | |- context [if ?b then _ else _] => destruct b
          end; [done|]).
  done.
Qed.

Lemma AddressToUpstream_heap (addr : string) (l : nat) (o : Options)
    (st : State) :
  heap st !! l = Some o ->
  heap (snd (AddressToUpstream addr (Some l) st)) = heap st \/
  exists ip,
    heap (snd (AddressToUpstream addr (Some l) st)) =
    <[l := set_ServerIPAddrs [ip] o]> (heap st).
Proof.
  intros Hl. unfold AddressToUpstream. simpl.
  destruct (parseAddress addr) as [e|uu]; [by left|].
  destruct (String.eqb_spec (Scheme uu) "sdns") as [Hs|Hs].
  - unfold urlToUpstream. rewrite Hs. simpl.
    destruct (parseStamp_heap uu l o st Hl) as [?|(stamp & ip & _ & _ & _ & ?)];
      [by left|right; by exists ip].
  - left. by apply urlToUpstream_heap.
Qed.

(** X11.  All that [AddressToUpstream] writes is [ServerIPAddrs] of the
    options it is given: the other options of the heap and the other fields of
    these options are as before, no location is added, and the list is either
    as before or holds one address. An address that does not parse to a URL of
    scheme [sdns] leaves the whole heap as it was. *)
Theorem AddressToUpstream_writes_only_ServerIPAddrs (addr : string) (l : nat)
    (o : Options) (st : State) :
  heap st !! l = Some o ->
  let st' := snd (AddressToUpstream addr (Some l) st) in
  (forall l', l' <> l -> heap st' !! l' = heap st !! l') /\
  (exists o',
     heap st' !! l = Some o' /\
     o' = set_ServerIPAddrs (ServerIPAddrs o') o /\
     (ServerIPAddrs o' = ServerIPAddrs o \/ exists ip, ServerIPAddrs o' = [ip])) /\
  (forall uu,
     parseAddress addr = inr uu -> Scheme uu <> "sdns" -> heap st' = heap st) /\
  (forall e, parseAddress addr = inl e -> heap st' = heap st).
Proof.
  intros Hl st'. split_and!.
  - intros l' Hne. subst st'.
    destruct (AddressToUpstream_heap addr l o st Hl) as [->|[ip ->]]; [done|].
    by rewrite lookup_insert_ne.
  - subst st'.
    destruct (AddressToUpstream_heap addr l o st Hl) as [->|[ip ->]].
    + exists o. split; [done|]. split; [by rewrite set_ServerIPAddrs_same|by left].
    + exists (set_ServerIPAddrs [ip] o). rewrite lookup_insert_eq.
      split; [done|]. split; [done|]. right. by exists ip.
  - intros uu Hu Hs. subst st'. unfold AddressToUpstream. simpl. rewrite Hu.
    by apply urlToUpstream_heap.
  - intros e He. subst st'. unfold AddressToUpstream. simpl. by rewrite He.
Qed.

(** A stamp that does not decode, and a stamp whose address is not an IP
    address (a host name, say), are refused before anything is written or
    built: the state is as before. *)
Lemma parseStamp_refused_keeps_state (upsURL : URL) (opts : option nat)
    (st : State) :
  (forall e,
     NewServerStampFromString (URL_String upsURL) = inl e ->
     parseStamp upsURL opts st =
     (Err (wrapError "failed to parse %s: %w" [ArgS (URL_String upsURL)] e), st)) /\
  (forall stamp,
     NewServerStampFromString (URL_String upsURL) = inr stamp ->
     ServerAddrStr stamp <> EmptyString ->
     net_ParseIP (stamp_host (ServerAddrStr stamp)) = None ->
     parseStamp upsURL opts st =
     (Err (fmtError "invalid server stamp address %s"
             [ArgS (ServerAddrStr stamp)]), st)).
Proof.
  split.
  - intros e He. unfold parseStamp. by rewrite He.
  - intros stamp Hs Hne Hip. unfold parseStamp. rewrite Hs.
    apply is_empty_false in Hne. by rewrite Hne, Hip.
Qed.

(** X13.  A clone is a new [Options] value with every field of the original,
    and it keeps the original out of reach: whatever address
    [AddressToUpstream] is then given together with the clone, the original is
    afterwards what it was. *)
Theorem Clone_isolates (l : nat) (o : Options) (st : State) (addr : string) :
  heap st !! l = Some o ->
  exists clone st1,
    Clone (Some l) st = (Ok clone, st1) /\
    clone <> l /\
    heap st !! clone = None /\
    heap st1 !! clone = Some o /\
    heap st1 !! l = Some o /\
    calls st1 = calls st /\
    heap (snd (AddressToUpstream addr (Some clone) st1)) !! l = Some o.
Proof.
  intros Hl. unfold Clone. rewrite Hl.
  set (clone := fresh (dom (heap st))).
  assert (heap st !! clone = None) as Hfresh by apply fresh_loc_unused.
  assert (clone <> l) as Hne by (intros ->; congruence).
  eexists clone, _. split; [done|]. cbn [heap calls].
  assert ({| Bootstrap := Bootstrap o; Timeout := Timeout o;
             ServerIPAddrs := ServerIPAddrs o; HTTPVersions := HTTPVersions o;
             VerifyServerCertificate := VerifyServerCertificate o;
             VerifyConnection := VerifyConnection o;
             VerifyDNSCryptCertificate := VerifyDNSCryptCertificate o;
             InsecureSkipVerify := InsecureSkipVerify o;
             PreferIPv6 := PreferIPv6 o; QUICTracer := QUICTracer o;
             RootCAs := RootCAs o; CipherSuites := CipherSuites o |} = o) as ->
    by (by destruct o).
  split_and!; [done|done|apply lookup_insert_eq|by rewrite lookup_insert_ne|done|].
  set (st1 := mkState (<[clone := o]> (heap st)) (calls st)).
  assert (heap st1 !! clone = Some o) as Hc by apply lookup_insert_eq.
  destruct (AddressToUpstream_heap addr clone o st1 Hc) as [->|[ip ->]].
  - unfold st1. cbn [heap]. by rewrite lookup_insert_ne.
  - rewrite lookup_insert_ne by done. unfold st1. cbn [heap].
    by rewrite lookup_insert_ne.
Qed.

(** *** Bare addresses *)

(** X14.  An address without [://] is either refused for its port, before
    anything is built, or handed to the plain constructor as the host of a
    [udp] URL, exactly as it was written: no default port is added here, and
    no other transport is ever chosen. *)
Theorem AddressToUpstream_bare_is_plain (addr : string) (l : nat) (st : State) :
  strings_Contains addr "://" = false ->
  (exists cause,
     AddressToUpstream addr (Some l) st =
     (Err (wrapError "invalid address %s: %w" [ArgS addr] cause), st)) \/
  AddressToUpstream addr (Some l) st =
  call_constructor TPlain (URL_lit "udp" addr EmptyString) (Some l) st.
Proof.
  intros Hc. unfold AddressToUpstream, parseAddress. simpl. rewrite Hc.
  unfold parseBareAddress.
  destruct (net_SplitHostPort addr) as [e|[host port]]; [by right|].
  destruct (strconv_ParseUint port 10 16) as [v [cause|]];
    [left; by exists cause|by right].
Qed.

(** X15.  For a bare address [h:p], where [h] has no colon and no bracket and
    [p] is a decimal numeral: it is accepted exactly when the value of [p] is
    at most 65535, leading zeros or not, and then goes to the plain
    constructor as it was written; above that it is refused with a range
    error. An address that ends in its only colon is refused with a syntax
    error. *)
Theorem AddressToUpstream_bare_port_range (h p : string) (l : nat) (st : State) :
  colon_free h -> bracket_free h -> digits_only p = true ->
  let addr := h +:+ ":" +:+ p in
  AddressToUpstream addr (Some l) st =
  if is_empty p then
    (Err (wrapError "invalid address %s: %w" [ArgS addr]
            (syntaxError "ParseUint" EmptyString)), st)
  else if decimal_value p <=? 65535 then
    call_constructor TPlain (URL_lit "udp" addr EmptyString) (Some l) st
  else
    (Err (wrapError "invalid address %s: %w" [ArgS addr]
            (rangeError "ParseUint" p)), st).
Proof.
  intros Hh Hb Hp addr.
  unfold AddressToUpstream, parseAddress. simpl.
  unfold addr at 1. rewrite (host_port_no_scheme h p Hh Hp).
  unfold parseBareAddress. unfold addr at 1.
  rewrite net_SplitHostPort_host_port
    by auto using digits_only_colon_free, digits_only_bracket_free.
  destruct (is_empty p) eqn:He.
  - apply is_empty_true in He. by subst p.
  - apply is_empty_false in He. rewrite strconv_ParseUint_decimal by done.
    by destruct (decimal_value p <=? 65535).
Qed.

(** X16.  Given options that exist, [AddressToUpstream] either returns an
    error without having called a transport constructor, or has called exactly
    one constructor, with the pointer it was given, and returns what that
    constructor returned, be it an upstream, an error or a panic; it never
    panics by itself. *)
Theorem AddressToUpstream_calls_one_constructor (addr : string) (l : nat)
    (st : State) :
  is_Some (heap st !! l) ->
  let res := AddressToUpstream addr (Some l) st in
  ((exists e, fst res = Err e) /\ calls (snd res) = calls st) \/
  (exists tp uu st1,
     calls st1 = calls st /\
     fst res = construct tp uu (Some l) st1 /\
     calls (snd res) = calls st ++ [mkConstructorCall tp uu (Some l) (fst res)]).
Proof.
  intros [o Hl] res. subst res. unfold AddressToUpstream. simpl.
  destruct (parseAddress addr) as [e|uu]; [left; split; [by eexists|done]|].
  assert (forall tp uu' st1, calls st1 = calls st ->
    let r := call_constructor tp uu' (Some l) st1 in
    exists tp0 uu0 st0,
      calls st0 = calls st /\ fst r = construct tp0 uu0 (Some l) st0 /\
      calls (snd r) = calls st ++ [mkConstructorCall tp0 uu0 (Some l) (fst r)])
    as Hcall.
  { intros tp uu' st1 Hc r. exists tp, uu', st1. subst r. simpl.
    by rewrite Hc. }
  unfold urlToUpstream.
  destruct (String.eqb (Scheme uu) "sdns").
  2:{ repeat (match goal with
              | |- context [if ?b then _ else _] => destruct b
              end; [right; by apply Hcall|]).
      left. split; [by eexists|done]. }
  unfold parseStamp.
  destruct (NewServerStampFromString (URL_String uu)) as [err|stamp];
    [left; split; [by eexists|done]|].
  destruct (is_empty (ServerAddrStr stamp)).
  { switch_Proto ltac:(right; by apply Hcall).
    left. split; [by eexists|done]. }
  destruct (net_ParseIP (stamp_host (ServerAddrStr stamp))) as [ip|].
  - unfold store_ServerIPAddrs. rewrite Hl.
    switch_Proto ltac:(right; by apply Hcall).
    left. split; [by eexists|done].
  - left. split; [by eexists|done].
Qed.

(** *** The port of a stamp's address *)

Lemma net_SplitHostPort_JoinHostPort (h p : string) :
  bracket_free h -> digits_only p = true ->
  net_SplitHostPort (net_JoinHostPort h p) = inr (h, p).
Proof.
  intros Hb Hp. unfold net_JoinHostPort.
  destruct (IndexByteString h ":") eqn:Hc.
  - apply net_SplitHostPort_bracketed;
      auto using digits_only_colon_free, digits_only_bracket_free.
  - apply net_SplitHostPort_host_port;
      auto using digits_only_colon_free, digits_only_bracket_free.
Qed.

Lemma net_JoinHostPort_not_empty (h p : string) :
  net_JoinHostPort h p <> EmptyString.
Proof.
  unfold net_JoinHostPort. destruct (IndexByteString h ":"); [done|].
  by destruct h.
Qed.

(** X17.  The port of the address of a stamp is dropped: when the address is a
    host without brackets joined, as by [net.JoinHostPort], with a decimal
    port up to 65535, the host alone is parsed as an IP address, and its
    address is what [ServerIPAddrs] holds afterwards, whatever the port. *)
Theorem parseStamp_drops_port (upsURL : URL) (l : nat) (o : Options)
    (st : State) (stamp : ServerStamp) (h p : string) (ip : IP) :
  heap st !! l = Some o ->
  NewServerStampFromString (URL_String upsURL) = inr stamp ->
  ServerAddrStr stamp = net_JoinHostPort h p ->
  bracket_free h ->
  p <> EmptyString -> digits_only p = true -> decimal_value p <= 65535 ->
  net_ParseIP h = Some ip ->
  stamp_host (ServerAddrStr stamp) = h /\
  heap (snd (parseStamp upsURL (Some l) st)) =
  <[l := set_ServerIPAddrs [ip] o]> (heap st).
Proof.
  intros Hl Hstamp Haddr Hb Hne Hp Hle Hip.
  assert (stamp_host (ServerAddrStr stamp) = h) as Hhost.
  { unfold stamp_host. rewrite Haddr.
    rewrite (netutil_SplitHostPort_of_split _ h p) by
      auto using net_SplitHostPort_JoinHostPort.
    by apply N.leb_le in Hle as ->. }
  split; [done|].
  unfold parseStamp. rewrite Hstamp.
  pose proof (net_JoinHostPort_not_empty h p) as Hnon.
  rewrite <- Haddr in Hnon. apply is_empty_false in Hnon.
  rewrite Hnon, Hhost, Hip. unfold store_ServerIPAddrs. rewrite Hl.
  switch_Proto ltac:(done). done.
Qed.

End Construction.

(** ** Bogus NXDOMAIN detection *)

(** [dns.Question] and the two sections of [dns.Msg] that the check reads. *)
Record dns_Question : Type := mkQuestion {
  Name : string;
  Qtype : N;
  Qclass : N
}.

Definition TypeA : N := 1.
Definition TypeAAAA : N := 28.

Section Proxy.

(** Resource records and subnets are abstract; [proxyutil.IPFromRR],
    [netutil.ValidateIP] and [net.IPNet.Contains] are collaborators without
    effects. *)
Variable RR : Type.
Variable IPNet : Type.
Variable proxyutil_IPFromRR : RR -> IP.
Variable netutil_ValidateIP : IP -> option error.
Variable IPNet_Contains : IPNet -> IP -> bool.

Record Msg : Type := mkMsg {
  Question : list dns_Question;
  Answer : list RR
}.

(** The field of [Proxy] that the check reads. *)
Record Proxy : Type := mkProxy {
  BogusNXDomain : list IPNet
}.

(** The loop [for _, n := range nets] of [containsIP]. *)
Fixpoint containsIP_loop (nets : list IPNet) (ip : IP) : bool :=
  match nets with
  | [] => false
  | n :: rest => if IPNet_Contains n ip then true else containsIP_loop rest ip
  end.

Definition containsIP (nets : list IPNet) (ip : IP) : bool :=
  match netutil_ValidateIP ip with
  | Some _ => false
  | None => containsIP_loop nets ip
  end.

(** The loop [for _, rr := range m.Answer] of [isBogusNXDomain]. *)
Fixpoint isBogusNXDomain_loop (p : Proxy) (answer : list RR) : bool :=
  match answer with
  | [] => false
  | rr :: rest =>
      let ip := proxyutil_IPFromRR rr in
      if containsIP (BogusNXDomain p) ip then true
      else isBogusNXDomain_loop p rest
  end.

(** [m] is a pointer: [None] is nil. *)
Definition isBogusNXDomain (p : Proxy) (m : option Msg) : bool :=
  match m with
  | None => false
  | Some m =>
      if (length (BogusNXDomain p) =? 0)%nat || (length (Question m) =? 0)%nat
      then false
      else
        match Question m with
        | [] => false
        | q :: _ =>
            if negb (Qtype q =? TypeA) && negb (Qtype q =? TypeAAAA) then false
            else isBogusNXDomain_loop p (Answer m)
        end
  end.

Lemma containsIP_loop_true (nets : list IPNet) (ip : IP) :
  containsIP_loop nets ip = true <->
  exists n, n ∈ nets /\ IPNet_Contains n ip = true.
Proof.
  induction nets as [|n nets IH]; simpl.
  - split; [done|]. by intros (n & ?%elem_of_nil & _).
  - destruct (IPNet_Contains n ip) eqn:Hn.
    + split; [|done]. intros _. exists n. split; [apply list_elem_of_here|done].
    + rewrite IH. split.
      * intros (n' & Hin & Hc). exists n'. split; [by apply list_elem_of_further|done].
      * intros (n' & Hin & Hc). apply elem_of_cons in Hin as [->|Hin].
        -- congruence.
        -- by exists n'.
Qed.

Lemma containsIP_true (nets : list IPNet) (ip : IP) :
  containsIP nets ip = true <->
  netutil_ValidateIP ip = None /\
  exists n, n ∈ nets /\ IPNet_Contains n ip = true.
Proof.
  unfold containsIP. destruct (netutil_ValidateIP ip) as [e|].
  - split; [done|]. by intros [? _].
  - rewrite containsIP_loop_true. split; [by split|by intros [_ ?]].
Qed.

Lemma isBogusNXDomain_loop_true (p : Proxy) (answer : list RR) :
  isBogusNXDomain_loop p answer = true <->
  exists rr, rr ∈ answer /\
    containsIP (BogusNXDomain p) (proxyutil_IPFromRR rr) = true.
Proof.
  induction answer as [|rr answer IH]; simpl.
  - split; [done|]. by intros (rr & ?%elem_of_nil & _).
  - destruct (containsIP (BogusNXDomain p) (proxyutil_IPFromRR rr)) eqn:Hc.
    + split; [|done]. intros _. exists rr. split; [apply list_elem_of_here|done].
    + rewrite IH. split.
      * intros (rr' & Hin & Hc'). exists rr'.
        split; [by apply list_elem_of_further|done].
      * intros (rr' & Hin & Hc'). apply elem_of_cons in Hin as [->|Hin].
        -- congruence.
        -- by exists rr'.
Qed.

(** The condition under which an answer is bogus. *)
Definition bogus (p : Proxy) (m : option Msg) : Prop :=
  exists msg,
    m = Some msg /\
    BogusNXDomain p <> [] /\
    (exists q qs,
       Question msg = q :: qs /\ (Qtype q = TypeA \/ Qtype q = TypeAAAA)) /\
    (exists rr n,
       rr ∈ Answer msg /\
       netutil_ValidateIP (proxyutil_IPFromRR rr) = None /\
       n ∈ BogusNXDomain p /\
       IPNet_Contains n (proxyutil_IPFromRR rr) = true).

(** C9.  [isBogusNXDomain] returns true exactly when the message is not
    nil, subnets are configured, there is a question, the first question
    asks for A or AAAA, and some record of the answer section gives an IP
    address that is valid and contained in a configured subnet; otherwise it
    returns false. *)
Theorem isBogusNXDomain_spec (p : Proxy) (m : option Msg) :
  (isBogusNXDomain p m = true <-> bogus p m) /\
  (~ bogus p m -> isBogusNXDomain p m = false).
Proof.
  assert (isBogusNXDomain p m = true <-> bogus p m) as Hiff.
  { unfold isBogusNXDomain, bogus. destruct m as [msg|].
    2:{ split; [done|]. by intros (? & ? & _). }
    destruct (BogusNXDomain p) as [|n0 nets] eqn:Hnets; simpl.
    { split; [done|]. by intros (? & _ & ? & _). }
    destruct (Question msg) as [|q qs] eqn:Hq; simpl.
    { split; [done|]. intros (? & [= <-] & _ & (? & ? & Hq' & _) & _).
      rewrite Hq in Hq'. discriminate. }
    destruct (Qtype q =? TypeA) eqn:Ha; simpl.
    - apply N.eqb_eq in Ha. rewrite isBogusNXDomain_loop_true. simpl.
      rewrite Hnets. split.
      + intros (rr & Hin & Hc). apply containsIP_true in Hc as [Hv (n & Hn & Hc)].
        exists msg. split; [done|]. split; [done|].
        split; [exists q, qs; split; [done|by left]|]. by exists rr, n.
      + intros (? & [= <-] & _ & _ & (rr & n & Hin & Hv & Hn & Hc)).
        exists rr. split; [done|]. apply containsIP_true. split; [done|by exists n].
    - destruct (Qtype q =? TypeAAAA) eqn:Haaaa; simpl.
      + apply N.eqb_eq in Haaaa. rewrite isBogusNXDomain_loop_true. simpl.
        rewrite Hnets. split.
        * intros (rr & Hin & Hc).
          apply containsIP_true in Hc as [Hv (n & Hn & Hc)].
          exists msg. split; [done|]. split; [done|].
          split; [exists q, qs; split; [done|by right]|]. by exists rr, n.
        * intros (? & [= <-] & _ & _ & (rr & n & Hin & Hv & Hn & Hc)).
          exists rr. split; [done|]. apply containsIP_true.
          split; [done|by exists n].
      + apply N.eqb_neq in Ha, Haaaa. split; [done|].
        intros (? & [= <-] & _ & (q' & qs' & Hq' & Ht) & _).
        rewrite Hq in Hq'. injection Hq' as <- <-. by destruct Ht. }
  split; [done|].
  intros Hnot. apply not_true_is_false. intros Hb. by apply Hnot, Hiff.
Qed.

(** *** Further properties of the check *)

Lemma containsIP_loop_app (nets1 nets2 : list IPNet) (ip : IP) :
  containsIP_loop (nets1 ++ nets2) ip =
  containsIP_loop nets1 ip || containsIP_loop nets2 ip.
Proof.
  induction nets1 as [|n nets1 IH]; simpl; [done|].
  by destruct (IPNet_Contains n ip).
Qed.

Lemma containsIP_app (nets1 nets2 : list IPNet) (ip : IP) :
  containsIP (nets1 ++ nets2) ip = containsIP nets1 ip || containsIP nets2 ip.
Proof.
  unfold containsIP. destruct (netutil_ValidateIP ip); [done|].
  apply containsIP_loop_app.
Qed.

(** X18.  [containsIP] answers true exactly for an address that is valid and
    lies in one of the subnets; an invalid address is in no subnet, whatever
    [Contains] says; and a list of subnets put together from two lists
    contains what either list contains. *)
Theorem containsIP_spec (nets : list IPNet) (ip : IP) :
  (containsIP nets ip = true <->
   netutil_ValidateIP ip = None /\
   exists n, n ∈ nets /\ IPNet_Contains n ip = true) /\
  (forall e, netutil_ValidateIP ip = Some e -> containsIP nets ip = false) /\
  (forall nets2,
     containsIP (nets ++ nets2) ip = containsIP nets ip || containsIP nets2 ip).
Proof.
  split; [apply containsIP_true|]. split.
  - intros e He. unfold containsIP. by rewrite He.
  - intros nets2. apply containsIP_app.
Qed.

Lemma isBogusNXDomain_loop_app (p : Proxy) (answer1 answer2 : list RR) :
  isBogusNXDomain_loop p (answer1 ++ answer2) =
  isBogusNXDomain_loop p answer1 || isBogusNXDomain_loop p answer2.
Proof.
  induction answer1 as [|rr answer1 IH]; simpl; [done|].
  by destruct (containsIP (BogusNXDomain p) (proxyutil_IPFromRR rr)).
Qed.

Lemma isBogusNXDomain_loop_nets_app (nets1 nets2 : list IPNet)
    (answer : list RR) :
  isBogusNXDomain_loop (mkProxy (nets1 ++ nets2)) answer =
  isBogusNXDomain_loop (mkProxy nets1) answer
  || isBogusNXDomain_loop (mkProxy nets2) answer.
Proof.
  induction answer as [|rr answer IH]; simpl; [done|].
  rewrite containsIP_app, IH.
  destruct (containsIP nets1 (proxyutil_IPFromRR rr)),
    (containsIP nets2 (proxyutil_IPFromRR rr)); simpl; try done.
  by rewrite orb_true_r.
Qed.

Lemma isBogusNXDomain_loop_no_nets (answer : list RR) :
  isBogusNXDomain_loop (mkProxy []) answer = false.
Proof.
  induction answer as [|rr answer IH]; simpl; [done|].
  unfold containsIP. simpl.
  by destruct (netutil_ValidateIP (proxyutil_IPFromRR rr)).
Qed.

(** X19.  The verdict on a message is the disjunction of the verdicts over any
    split of the configured subnets, and over any split of the answer section;
    and of the question section it reads nothing but the type of the first
    question. *)
Theorem isBogusNXDomain_unions (nets1 nets2 : list IPNet)
    (question : list dns_Question) (answer1 answer2 : list RR) :
  (forall answer,
     isBogusNXDomain (mkProxy (nets1 ++ nets2)) (Some (mkMsg question answer)) =
     isBogusNXDomain (mkProxy nets1) (Some (mkMsg question answer))
     || isBogusNXDomain (mkProxy nets2) (Some (mkMsg question answer))) /\
  (forall p,
     isBogusNXDomain p (Some (mkMsg question (answer1 ++ answer2))) =
     isBogusNXDomain p (Some (mkMsg question answer1))
     || isBogusNXDomain p (Some (mkMsg question answer2))) /\
  (forall p q q' rest rest' answer,
     Qtype q = Qtype q' ->
     isBogusNXDomain p (Some (mkMsg (q :: rest) answer)) =
     isBogusNXDomain p (Some (mkMsg (q' :: rest') answer))).
Proof.
  split; [|split].
  - intros answer. unfold isBogusNXDomain. cbn [BogusNXDomain Question Answer].
    destruct question as [|q qs].
    { cbn [length]. by rewrite !orb_true_r. }
    cbn [length Nat.eqb]. rewrite !orb_false_r.
    destruct (negb (Qtype q =? TypeA) && negb (Qtype q =? TypeAAAA)).
    { by destruct (length (nets1 ++ nets2) =? 0)%nat,
        (length nets1 =? 0)%nat, (length nets2 =? 0)%nat. }
    rewrite isBogusNXDomain_loop_nets_app.
    destruct nets1 as [|n1 nets1], nets2 as [|n2 nets2]; cbn [app length Nat.eqb].
    + done.
    + by rewrite isBogusNXDomain_loop_no_nets.
    + by rewrite isBogusNXDomain_loop_no_nets, !orb_false_r.
    + done.
  - intros p. unfold isBogusNXDomain. cbn [Question Answer].
    destruct ((length (BogusNXDomain p) =? 0)%nat || (length question =? 0)%nat);
      [done|].
    destruct question as [|q qs]; [done|].
    destruct (negb (Qtype q =? TypeA) && negb (Qtype q =? TypeAAAA)); [done|].
    apply isBogusNXDomain_loop_app.
  - intros p q q' rest rest' answer Hq. unfold isBogusNXDomain.
    cbn [Question Answer length Nat.eqb]. by rewrite Hq.
Qed.

End Proxy.

(** ** A concrete world *)

Arguments netResolver {upstreamResolver}.
Arguments upsResolver {upstreamResolver} r.
Arguments nopClose {upstreamResolver}.
Arguments closeBootsFunc {upstreamResolver} closeBoots.
Arguments EvNewUpstreamResolver {upstreamResolver DialHandler} boot opts res.
Arguments EvClose {upstreamResolver DialHandler} r res.
Arguments EvResolveDialContext {upstreamResolver DialHandler} u timeout
  resolvers preferIPv6 res.
Arguments diHandler {upstreamResolver DialHandler} handler.
Arguments diBootstrap {upstreamResolver DialHandler} u opts resolvers.
Arguments pcIdle {DialHandler}.
Arguments pcEntry {DialHandler}.
Arguments pcReturned {DialHandler} h err.
Arguments mkDiState {upstreamResolver DialHandler} dialHandler threads events
  resolutions.
Arguments dialHandler {upstreamResolver DialHandler} d.
Arguments threads {upstreamResolver DialHandler} d t.
Arguments events {upstreamResolver DialHandler} d.
Arguments resolutions {upstreamResolver DialHandler} d t.
Arguments run {upstreamResolver DialHandler} world di sched s.
Arguments di_init {upstreamResolver DialHandler} tr.
Arguments newResolvers {upstreamResolver DialHandler} world opts tr.
Arguments call_closeFunc {upstreamResolver DialHandler} world f tr.
Arguments newDialerInitializer {upstreamResolver DialHandler}
  bootstrap_NewDialContext netip_ParseAddr IP_String netutil_JoinHostPort
  world u opts tr.

(** Upstream-backed resolvers are numbered, and a dial handler is the timeout
    and the addresses it dials. *)
Definition ex_NewDialContext (timeout : Z) (addrs : list string)
  : Z * list string := (timeout, addrs).

Definition ex_ParseAddr (s : string) : option error :=
  if String.eqb s "8.8.8.8" || String.eqb s "1.1.1.1" then None
  else Some (errorString "unable to parse IP").

Definition ex_IP_String (ip : IP) : string :=
  if decide (ip = [9; 9; 9; 9]) then "9.9.9.9" else "?".

Definition ex_JoinHostPort (host : string) (port : N) : string :=
  host +:+ ":" +:+ (if port =? 853 then "853" else "53").

(** The bootstrap server 9.9.9.9 cannot be set up; a new resolver gets the
    length of the history as its number; closing resolver 0 fails; the first
    resolution of all times out and the later ones succeed. *)
Definition ex_world : Oracle nat (Z * list string) :=
  mkOracle nat (Z * list string)
    (fun tr boot _ =>
       if String.eqb boot "9.9.9.9:53" then inl (errorString "no route to host")
       else inr (length tr))
    (fun _ r =>
       if (r =? 0)%nat then Some (errorString "already closed") else None)
    (fun tr _ timeout _ _ =>
       match tr with
       | [] => inl (errorString "i/o timeout")
       | _ => inr (timeout, ["93.184.216.34:853"])
       end).

Definition ex_u : URL := URL_lit "tls" "dns.example:853" EmptyString.

Definition ex_opts (bootstrap : list string) (ips : list IP) : Options :=
  mkOptions None None None None None [] bootstrap ips [] 0%Z false false.

Definition ex_bootstrap_ok : list string := ["8.8.8.8:53"; EmptyString; "1.1.1.1:53"].
Definition ex_bootstrap_bad : list string :=
  ex_bootstrap_ok ++ ["9.9.9.9:53"; "8.8.4.4:53"].

Definition ex_handler : Z * list string := (0%Z, ["93.184.216.34:853"]).

(** A state in which the cell has been set by a resolution and goroutine 1,
    which had found it unset, is about to resolve. *)
Definition ex_set_state : diState nat (Z * list string) :=
  mkDiState (Some ex_handler)
    (fun t => if (t =? 1)%nat then pcResolve (Z * list string) else pcIdle)
    [EvResolveDialContext ex_u 0%Z [netResolver] false (inr ex_handler)]
    (fun _ => 0%nat).

Definition ex_sched : list action :=
  [Call 0; Step 1; Call 2; Step 0; Step 2; Step 1; Call 0; Step 1; Step 0].

Example split_ipv4 : net_SplitHostPort "8.8.8.8:53" = inr ("8.8.8.8", "53").
Proof. reflexivity. Qed.

Example split_ipv6 : net_SplitHostPort "[::1]:853" = inr ("::1", "853").
Proof. reflexivity. Qed.

Example split_bare_ipv6 :
  net_SplitHostPort "fe80::ff" = inl (AddrError tooManyColons "fe80::ff").
Proof. reflexivity. Qed.

Example split_bracket_only :
  net_SplitHostPort "[::1]" = inl (AddrError missingPort "[::1]").
Proof. reflexivity. Qed.

Example parse_port_ok : strconv_ParseUint "853" 10 16 = (853, None).
Proof. reflexivity. Qed.

Example parse_port_range :
  strconv_ParseUint "65536" 10 16 =
  (65535, Some (rangeError "ParseUint" "65536")).
Proof. reflexivity. Qed.

Example parse_port_syntax :
  strconv_ParseUint "5x" 10 16 = (0, Some (syntaxError "ParseUint" "5x")).
Proof. reflexivity. Qed.

(** With the cell set, goroutines 0 and 2 come back with the stored handler
    and add nothing to the history; goroutine 1, which had found the cell
    unset, still resolves once and then gives its result up for the stored
    one. *)
Lemma dialHandler_memoized_witness :
  dialHandler (run ex_world (diBootstrap ex_u (ex_opts [] []) [netResolver])
                 ex_sched ex_set_state) = Some ex_handler /\
  resolutions (run ex_world (diBootstrap ex_u (ex_opts [] []) [netResolver])
                 ex_sched ex_set_state) 0 = 0%nat /\
  threads (run ex_world (diBootstrap ex_u (ex_opts [] []) [netResolver])
             ex_sched ex_set_state) 0 = pcReturned (Some ex_handler) None /\
  resolutions (run ex_world (diBootstrap ex_u (ex_opts [] []) [netResolver])
                 ex_sched ex_set_state) 1 = 1%nat /\
  threads (run ex_world (diBootstrap ex_u (ex_opts [] []) [netResolver])
             ex_sched ex_set_state) 1 = pcReturned (Some ex_handler) None.
Proof.
  destruct (dialHandler_memoized nat (Z * list string) ex_world ex_u
              (ex_opts [] []) [netResolver] ex_set_state ex_handler ex_sched
              eq_refl) as (Hcell & Hfresh & _ & _).
  split; [exact Hcell|].
  split; [exact (proj1 (Hfresh 0%nat eq_refl))|].
  split; [reflexivity|]. split; reflexivity.
Defined.

Lemma newDialerInitializer_fast_path_witness :
  newDialerInitializer ex_NewDialContext ex_ParseAddr ex_IP_String
    ex_JoinHostPort ex_world ex_u
    (ex_opts ["8.8.8.8:53"] [[9; 9; 9; 9]]) [] =
  ((Some (diHandler (0%Z, ["9.9.9.9:853"])), nopClose, None), []).
Proof.
  exact (proj1 (proj1 (newDialerInitializer_fast_path nat (Z * list string)
                  ex_NewDialContext ex_ParseAddr ex_IP_String ex_JoinHostPort
                  ex_world ex_u (ex_opts ["8.8.8.8:53"] [[9; 9; 9; 9]]) [])
                  "dns.example" 853 eq_refl
                  (or_introl (fun H => eq_ind [[9; 9; 9; 9]]
                     (fun l => match l with [] => False | _ => True end)
                     I [] H)))).
Defined.

(** As the claim reads, a server address list, or a host that is an IP
    address, is enough for the fast path, with the port that the address
    carries.  With the port 65536 in [u.Host], which [net.SplitHostPort]
    finds there, the code returns an error instead, in both cases. *)
Lemma newDialerInitializer_fast_path_port_out_of_range :
  ServerIPAddrs (ex_opts [] [[9; 9; 9; 9]]) <> [] /\
  net_SplitHostPort "dns.example:65536" = inr ("dns.example", "65536") /\
  newDialerInitializer ex_NewDialContext ex_ParseAddr ex_IP_String
    ex_JoinHostPort ex_world (URL_lit "tls" "dns.example:65536" EmptyString)
    (ex_opts [] [[9; 9; 9; 9]]) [] =
  ((None, nopClose,
    Some (wrapError "invalid address: %s: %w" [ArgS "dns.example:65536"]
            (wrapError "parsing port: %w" []
               (rangeError "ParseUint" "65536")))), []) /\
  ex_ParseAddr "8.8.8.8" = None /\
  net_SplitHostPort "8.8.8.8:65536" = inr ("8.8.8.8", "65536") /\
  newDialerInitializer ex_NewDialContext ex_ParseAddr ex_IP_String
    ex_JoinHostPort ex_world (URL_lit "tls" "8.8.8.8:65536" EmptyString)
    (ex_opts [] []) [] =
  ((None, nopClose,
    Some (wrapError "invalid address: %s: %w" [ArgS "8.8.8.8:65536"]
            (wrapError "parsing port: %w" []
               (rangeError "ParseUint" "65536")))), []).
Proof. split; [done|]. repeat split; reflexivity. Qed.

(** Entries 0 and 2 are built, entry 3 fails, entry 4 is never tried, and
    both built resolvers are closed although closing the first one fails. *)
Lemma bootstrap_failure_unwinds_witness :
  newDialerInitializer ex_NewDialContext ex_ParseAddr ex_IP_String
    ex_JoinHostPort ex_world ex_u (ex_opts ex_bootstrap_bad []) [] =
  ((None, nopClose,
    Some (joinError
            [wrapError "preparing bootstrap resolver at index %d: %w" [ArgD 3]
               (errorString "no route to host");
             joinError [errorString "already closed"]])),
   [EvNewUpstreamResolver "8.8.8.8:53" (ex_opts ex_bootstrap_bad []) (inr 0%nat);
    EvNewUpstreamResolver "1.1.1.1:53" (ex_opts ex_bootstrap_bad []) (inr 1%nat);
    EvNewUpstreamResolver "9.9.9.9:53" (ex_opts ex_bootstrap_bad [])
      (inl (errorString "no route to host"));
    EvClose 0%nat (Some (errorString "already closed"));
    EvClose 1%nat None]).
Proof.
  refine (proj1 (proj2 (proj2
    (bootstrap_failure_unwinds nat (Z * list string) ex_NewDialContext
       ex_ParseAddr ex_IP_String ex_JoinHostPort ex_world ex_u
       (ex_opts ex_bootstrap_bad []) []
       [EvNewUpstreamResolver "8.8.8.8:53" (ex_opts ex_bootstrap_bad []) (inr 0%nat);
        EvNewUpstreamResolver "1.1.1.1:53" (ex_opts ex_bootstrap_bad []) (inr 1%nat)]
       "dns.example" 853 (errorString "unable to parse IP")
       (errorString "no route to host") ex_bootstrap_ok ["8.8.4.4:53"]
       "9.9.9.9:53" [upsResolver 0%nat; netResolver; upsResolver 1%nat]
       eq_refl eq_refl eq_refl eq_refl _ _ eq_refl)))).
  - discriminate.
  - apply builds_ups; [discriminate|reflexivity|].
    apply builds_net. apply builds_ups; [discriminate|reflexivity|].
    apply builds_nil.
Defined.

Lemma closeBoot_closes_all_witness :
  call_closeFunc ex_world (closeBootsFunc [0%nat; 1%nat]) [] =
  (Some (joinError [errorString "already closed"]),
   [EvClose 0%nat (Some (errorString "already closed")); EvClose 1%nat None]).
Proof.
  exact (proj1 (closeBoot_closes_all nat (Z * list string) ex_world
                  (ex_opts ex_bootstrap_ok []) []
                  [EvNewUpstreamResolver "8.8.8.8:53" (ex_opts ex_bootstrap_ok []) (inr 0%nat);
                   EvNewUpstreamResolver "1.1.1.1:53" (ex_opts ex_bootstrap_ok []) (inr 1%nat)]
                  [upsResolver 0%nat; netResolver; upsResolver 1%nat]
                  (closeBootsFunc [0%nat; 1%nat]) eq_refl [])).
Defined.

(** The three entries of [ex_bootstrap_ok] give two numbered resolvers with
    the system-default resolver between them. *)
Lemma newResolvers_chain_shape_witness :
  newResolvers ex_world (ex_opts [] []) [] = (([netResolver], nopClose, None), []) /\
  newResolvers ex_world (ex_opts ex_bootstrap_ok []) [] =
  (([upsResolver 0%nat; netResolver; upsResolver 1%nat],
    closeBootsFunc [0%nat; 1%nat], None),
   [EvNewUpstreamResolver "8.8.8.8:53" (ex_opts ex_bootstrap_ok []) (inr 0%nat);
    EvNewUpstreamResolver "1.1.1.1:53" (ex_opts ex_bootstrap_ok []) (inr 1%nat)]).
Proof.
  split.
  - exact (proj1 (newResolvers_chain_shape nat (Z * list string) ex_world
                    (ex_opts [] []) []) eq_refl).
  - refine (proj1 (proj2 (newResolvers_chain_shape nat (Z * list string)
                            ex_world (ex_opts ex_bootstrap_ok []) []))
              [upsResolver 0%nat; netResolver; upsResolver 1%nat]
              [EvNewUpstreamResolver "8.8.8.8:53" (ex_opts ex_bootstrap_ok []) (inr 0%nat);
               EvNewUpstreamResolver "1.1.1.1:53" (ex_opts ex_bootstrap_ok []) (inr 1%nat)]
              _ _).
    + discriminate.
    + apply builds_ups; [discriminate|reflexivity|].
      apply builds_net. apply builds_ups; [discriminate|reflexivity|].
      apply builds_nil.
Defined.

(** The first resolution times out: the error comes back wrapped and the
    cell stays unset; the second invocation resolves again and stores the
    handler it gets. *)
Lemma resolution_failure_not_memoized_witness :
  threads (run ex_world (diBootstrap ex_u (ex_opts [] []) [netResolver])
             (invoke 0) (di_init [])) 0 =
  pcReturned None
    (Some (wrapError "creating dial handler: %w" [] (errorString "i/o timeout"))) /\
  dialHandler (run ex_world (diBootstrap ex_u (ex_opts [] []) [netResolver])
                 (invoke 0) (di_init [])) = None /\
  dialHandler (run ex_world (diBootstrap ex_u (ex_opts [] []) [netResolver])
                 (invoke 0 ++ invoke 0) (di_init [])) = Some ex_handler.
Proof.
  destruct (resolution_failure_not_memoized nat (Z * list string) ex_world
              ex_u (ex_opts [] []) [netResolver] (di_init []) 0%nat
              (errorString "i/o timeout") eq_refl eq_refl eq_refl)
    as ((Hret & Hcell & _) & (_ & _ & Hnext) & _).
  split; [exact Hret|]. split; [exact Hcell|]. exact (proj1 Hnext).
Defined.

(** *** Addresses and stamps in a concrete world *)

Arguments mkState {Upstream} heap calls.
Arguments mkConstructorCall {Upstream} call_transport call_url call_opts
  call_result.
Arguments heap {Upstream} s.
Arguments calls {Upstream} s.

(** An upstream is described by its transport and the host it was given. *)
Definition ex_Upstream : Type := (Transport * string)%type.

Definition ex_stamp_addr : string := "sdns://AgcAAAAAAAAABzEuMS4xLjE".

Definition ex_url_Parse (addr : string) : error + URL :=
  if String.eqb addr ex_stamp_addr
  then inr (URL_lit "sdns" "AgcAAAAAAAAABzEuMS4xLjE" EmptyString)
  else inl (errorString "first path segment in URL cannot contain colon").

Definition ex_URL_String (uu : URL) : string :=
  Scheme uu +:+ "://" +:+ Host uu +:+ Path uu.

(** The stamp of a DNS-over-HTTPS server at 1.1.1.1. *)
Definition ex_NewServerStampFromString (s : string) : error + ServerStamp :=
  if String.eqb s ex_stamp_addr
  then inr (mkServerStamp "1.1.1.1:443" "cloudflare-dns.com" "/dns-query"
              StampProtoTypeDoH)
  else inl (errorString "invalid stamp").

Definition ex_ip_1111 : IP := [0; 0; 0; 0; 0; 0; 0; 0; 0; 0; 255; 255; 1; 1; 1; 1].
Definition ex_ip_9999 : IP := [0; 0; 0; 0; 0; 0; 0; 0; 0; 0; 255; 255; 9; 9; 9; 9].

Definition ex_net_ParseIP (host : string) : option IP :=
  if String.eqb host "1.1.1.1" then Some ex_ip_1111 else None.

Definition ex_StampProtoType_String (p : StampProtoType) : string :=
  if p =? StampProtoTypeDNSCrypt then "DNSCrypt"
  else if p =? StampProtoTypeDoH then "DoH"
  else if p =? StampProtoTypeTLS then "TLS"
  else if p =? StampProtoTypeDoQ then "DoQ"
  else if p =? StampProtoTypePlain then "Plain"
  else "(unknown)".

(** A transport constructor reads its options, and panics when it has
    none. *)
Definition ex_constructor (tp : Transport) (uu : URL) (opts : option nat)
    (st : State ex_Upstream) : outcome ex_Upstream :=
  match opts with
  | Some l =>
      match heap st !! l with
      | Some _ => Ok (tp, Host uu)
      | None => Panic
      end
  | None => Panic
  end.

Definition ex_parseStamp :=
  parseStamp ex_Upstream ex_URL_String ex_NewServerStampFromString
    ex_net_ParseIP ex_StampProtoType_String (ex_constructor TPlain)
    (ex_constructor TDoQ) (ex_constructor TDoT) (ex_constructor TDoH)
    (ex_constructor TDNSCrypt).

Definition ex_AddressToUpstream :=
  AddressToUpstream ex_Upstream ex_url_Parse ex_URL_String
    ex_NewServerStampFromString ex_net_ParseIP ex_StampProtoType_String
    (ex_constructor TPlain) (ex_constructor TDoQ) (ex_constructor TDoT)
    (ex_constructor TDoH) (ex_constructor TDNSCrypt).

(** The caller's options sit at location 0 and list 9.9.9.9. *)
Definition ex_state : State ex_Upstream :=
  mkState {[ 0%nat := ex_opts ["8.8.8.8:53"] [ex_ip_9999] ]} [].

(** The stamp's 1.1.1.1 takes the place of the configured 9.9.9.9. *)
Lemma parseStamp_replaces_ServerIPAddrs_witness :
  heap (snd (ex_AddressToUpstream ex_stamp_addr (Some 0%nat) ex_state)) =
  {[ 0%nat := ex_opts ["8.8.8.8:53"] [ex_ip_1111] ]} /\
  fst (ex_AddressToUpstream ex_stamp_addr (Some 0%nat) ex_state) =
  Ok (TDoH, "cloudflare-dns.com").
Proof.
  destruct (parseStamp_replaces_ServerIPAddrs ex_Upstream ex_url_Parse
              ex_URL_String ex_NewServerStampFromString ex_net_ParseIP
              ex_StampProtoType_String (ex_constructor TPlain)
              (ex_constructor TDoQ) (ex_constructor TDoT) (ex_constructor TDoH)
              (ex_constructor TDNSCrypt) ex_stamp_addr
              (URL_lit "sdns" "AgcAAAAAAAAABzEuMS4xLjE" EmptyString)
              0%nat (ex_opts ["8.8.8.8:53"] [ex_ip_9999]) ex_state
              (mkServerStamp "1.1.1.1:443" "cloudflare-dns.com" "/dns-query"
                 StampProtoTypeDoH)
              ex_ip_1111 eq_refl eq_refl ltac:(discriminate) eq_refl)
    as (Hheap & _ & _ & Hentry).
  split.
  - unfold ex_AddressToUpstream.
    rewrite (Hentry eq_refl eq_refl eq_refl), Hheap. simpl.
    apply insert_singleton_eq.
  - reflexivity.
Defined.

(** A host with a port that is not a number is rejected. *)
Lemma AddressToUpstream_malformed_witness :
  fst (ex_AddressToUpstream "dns.example:http" (Some 0%nat) ex_state) =
  Err (wrapError "invalid address %s: %w" [ArgS "dns.example:http"]
         (syntaxError "ParseUint" "http")) /\
  calls (snd (ex_AddressToUpstream "dns.example:http" (Some 0%nat) ex_state)) =
  calls ex_state.
Proof.
  destruct (proj2 (proj1 (AddressToUpstream_malformed ex_Upstream ex_url_Parse
              ex_URL_String ex_NewServerStampFromString ex_net_ParseIP
              ex_StampProtoType_String (ex_constructor TPlain)
              (ex_constructor TDoQ) (ex_constructor TDoT) (ex_constructor TDoH)
              (ex_constructor TDNSCrypt) "dns.example:http" (Some 0%nat)
              ex_state)
             (wrapError "invalid address %s: %w" [ArgS "dns.example:http"]
                (syntaxError "ParseUint" "http")))
           (or_intror (or_intror (conj eq_refl
              (ex_intro _ "dns.example" (ex_intro _ "http" (ex_intro _ 0
                 (ex_intro _ (syntaxError "ParseUint" "http")
                    (conj eq_refl (conj eq_refl eq_refl)))))))))) as (Hfst & Hc & _).
  split; [exact Hfst|exact Hc].
Defined.

(** As the claim reads, every address without [://] whose part after the
    last colon is not a 16-bit port is rejected.  The address fe80::ff is
    such an address, and it is handed to the plain constructor as a host. *)
Lemma AddressToUpstream_accepts_bare_ipv6 :
  strings_Contains "fe80::ff" "://" = false /\
  colon_suffix "fe80::ff" = Some "ff" /\
  strconv_ParseUint "ff" 10 16 = (0, Some (syntaxError "ParseUint" "ff")) /\
  parseBareAddress "fe80::ff" = inr (URL_lit "udp" "fe80::ff" EmptyString) /\
  ex_AddressToUpstream "fe80::ff" (Some 0%nat) ex_state =
  (Ok (TPlain, "fe80::ff"),
   mkState (heap ex_state)
     [mkConstructorCall TPlain (URL_lit "udp" "fe80::ff" EmptyString)
        (Some 0%nat) (Ok (TPlain, "fe80::ff"))]).
Proof. repeat split; reflexivity. Qed.

(** With nil options the stamp's address lands in a new [Options] value and
    the constructor is given the pointer to it. *)
Lemma AddressToUpstream_nil_opts_witness :
  ex_AddressToUpstream ex_stamp_addr None ex_state =
  (Ok (TDoH, "cloudflare-dns.com"),
   mkState (<[1%nat := ex_opts [] [ex_ip_1111]]> (heap ex_state))
     [mkConstructorCall TDoH
        (URL_lit "https" "cloudflare-dns.com" "/dns-query") (Some 1%nat)
        (Ok (TDoH, "cloudflare-dns.com"))]).
Proof.
  destruct (AddressToUpstream_nil_opts ex_Upstream ex_url_Parse ex_URL_String
              ex_NewServerStampFromString ex_net_ParseIP
              ex_StampProtoType_String (ex_constructor TPlain)
              (ex_constructor TDoQ) (ex_constructor TDoT) (ex_constructor TDoH)
              (ex_constructor TDNSCrypt) ex_stamp_addr ex_state)
    as (_ & _ & Hsame & _).
  unfold ex_AddressToUpstream. rewrite Hsame. vm_compute. reflexivity.
Defined.

(** ** Further properties in the concrete world *)

(** The chain of [ex_bootstrap_bad] is not built: the error names entry 3,
    which is not empty. *)
Lemma newResolvers_chain_iff_no_error_witness :
  exists i boot cause,
    Bootstrap (ex_opts ex_bootstrap_bad []) !! i = Some boot /\
    boot <> EmptyString /\
    wrapError "preparing bootstrap resolver at index %d: %w" [ArgD 3]
      (errorString "no route to host") =
    wrapError "preparing bootstrap resolver at index %d: %w" [ArgD i] cause.
Proof.
  refine (proj2 (proj2
    (newResolvers_chain_iff_no_error nat (Z * list string) ex_world
       (ex_opts ex_bootstrap_bad []) []
       [EvNewUpstreamResolver "8.8.8.8:53" (ex_opts ex_bootstrap_bad []) (inr 0%nat);
        EvNewUpstreamResolver "1.1.1.1:53" (ex_opts ex_bootstrap_bad []) (inr 1%nat);
        EvNewUpstreamResolver "9.9.9.9:53" (ex_opts ex_bootstrap_bad [])
          (inl (errorString "no route to host"))]
       [] (closeBootsFunc [0%nat; 1%nat])
       (Some (wrapError "preparing bootstrap resolver at index %d: %w" [ArgD 3]
                (errorString "no route to host")))
       eq_refl)) _ eq_refl).
Defined.

(** Of the five entries of [ex_bootstrap_bad], the first three that are not
    empty are tried, in their order, and the third one fails. *)
Lemma newResolvers_history_witness :
  exists (attempted : list string) (results : list (error + nat)),
    [EvNewUpstreamResolver "8.8.8.8:53" (ex_opts ex_bootstrap_bad []) (inr 0%nat);
     EvNewUpstreamResolver "1.1.1.1:53" (ex_opts ex_bootstrap_bad []) (inr 1%nat);
     EvNewUpstreamResolver "9.9.9.9:53" (ex_opts ex_bootstrap_bad [])
       (inl (errorString "no route to host"))] =
    [] ++ zip_with
            (fun boot res =>
               @EvNewUpstreamResolver nat (Z * list string) boot
                 (ex_opts ex_bootstrap_bad []) res)
            attempted results /\
    length results = length attempted /\
    exists pre boot post built cause,
      Bootstrap (ex_opts ex_bootstrap_bad []) = pre ++ boot :: post /\
      boot <> EmptyString /\
      attempted = filter (fun boot => boot <> EmptyString) pre ++ [boot] /\
      results = map inr built ++ [inl cause] /\
      closeBootsFunc [0%nat; 1%nat] = closeBootsFunc built.
Proof.
  exact (newResolvers_history nat (Z * list string) ex_world
           (ex_opts ex_bootstrap_bad []) []
           [EvNewUpstreamResolver "8.8.8.8:53" (ex_opts ex_bootstrap_bad []) (inr 0%nat);
            EvNewUpstreamResolver "1.1.1.1:53" (ex_opts ex_bootstrap_bad []) (inr 1%nat);
            EvNewUpstreamResolver "9.9.9.9:53" (ex_opts ex_bootstrap_bad [])
              (inl (errorString "no route to host"))]
           [] (closeBootsFunc [0%nat; 1%nat])
           (Some (wrapError "preparing bootstrap resolver at index %d: %w"
                    [ArgD 3] (errorString "no route to host")))
           eq_refl).
Defined.

(** Closing the chain of [ex_bootstrap_ok] twice closes both upstream-backed
    resolvers twice. *)
Lemma closeBoot_closes_again_witness :
  snd (call_closeFunc ex_world (closeBootsFunc [0%nat; 1%nat])
         (snd (call_closeFunc ex_world (closeBootsFunc [0%nat; 1%nat]) []))) =
  [EvClose 0%nat (Some (errorString "already closed")); EvClose 1%nat None;
   EvClose 0%nat (Some (errorString "already closed")); EvClose 1%nat None].
Proof.
  pose proof (proj1 (closeBoot_closes_again nat (Z * list string) ex_world
                (ex_opts ex_bootstrap_ok []) []
                [EvNewUpstreamResolver "8.8.8.8:53" (ex_opts ex_bootstrap_ok []) (inr 0%nat);
                 EvNewUpstreamResolver "1.1.1.1:53" (ex_opts ex_bootstrap_ok []) (inr 1%nat)]
                [upsResolver 0%nat; netResolver; upsResolver 1%nat]
                (closeBootsFunc [0%nat; 1%nat]) eq_refl [])) as H.
  exact (f_equal snd H).
Defined.

(** A world in which every resolution succeeds with a handler that tells
    how long the history was. *)
Definition ex_race_world : Oracle nat (Z * list string) :=
  mkOracle nat (Z * list string)
    (fun tr _ _ => inr (length tr))
    (fun _ _ => None)
    (fun tr _ _ _ _ => inr (Z.of_nat (length tr), ["93.184.216.34:853"])).

(** Goroutines 0 and 1 race: both resolve, and both return the handler of
    the first resolution. *)
Lemma racing_invocations_both_resolve_witness :
  let s :=
    run ex_race_world (diBootstrap ex_u (ex_opts [] []) [netResolver])
      [Call 0; Call 1; Step 0; Step 1; Step 0; Step 1; Step 0; Step 1; Step 1]
      (di_init []) in
  length (events s) = 2%nat /\
  threads s 0 = pcReturned (Some (0%Z, ["93.184.216.34:853"])) None /\
  threads s 1 = pcReturned (Some (0%Z, ["93.184.216.34:853"])) None.
Proof.
  destruct (racing_invocations_both_resolve nat (Z * list string) ex_race_world
              ex_u (ex_opts [] []) [netResolver] [] 0%nat 1%nat
              (0%Z, ["93.184.216.34:853"]) (1%Z, ["93.184.216.34:853"])
              ltac:(discriminate) eq_refl eq_refl)
    as (Hev & _ & Ht1 & Ht2 & _).
  split; [exact (f_equal length Hev)|]. split; [exact Ht1|exact Ht2].
Defined.

(** A host without a port is refused although the options list an
    address. *)
Lemma newDialerInitializer_missing_port_witness :
  newDialerInitializer ex_NewDialContext ex_ParseAddr ex_IP_String
    ex_JoinHostPort ex_world (URL_lit "tls" "dns.example" EmptyString)
    (ex_opts ["8.8.8.8:53"] [[9; 9; 9; 9]]) [] =
  ((None, nopClose,
    Some (wrapError "invalid address: %s: %w" [ArgS "dns.example"]
            (AddrError missingPort "dns.example"))), []).
Proof.
  exact (newDialerInitializer_missing_port nat (Z * list string)
           ex_NewDialContext ex_ParseAddr ex_IP_String ex_JoinHostPort ex_world
           (URL_lit "tls" "dns.example" EmptyString)
           (ex_opts ["8.8.8.8:53"] [[9; 9; 9; 9]]) [] eq_refl).
Defined.

(** Port 0853 is port 853, and port 65536 is refused. *)
Lemma newDialerInitializer_port_range_witness :
  newDialerInitializer ex_NewDialContext ex_ParseAddr ex_IP_String
    ex_JoinHostPort ex_world (URL_lit "tls" "dns.example:0853" EmptyString)
    (ex_opts [] [[9; 9; 9; 9]]) [] =
  ((Some (diHandler (0%Z, ["9.9.9.9:853"])), nopClose, None), []) /\
  newDialerInitializer ex_NewDialContext ex_ParseAddr ex_IP_String
    ex_JoinHostPort ex_world (URL_lit "tls" "dns.example:65536" EmptyString)
    (ex_opts [] [[9; 9; 9; 9]]) [] =
  ((None, nopClose,
    Some (wrapError "invalid address: %s: %w" [ArgS "dns.example:65536"]
            (wrapError "parsing port: %w" []
               (rangeError "ParseUint" "65536")))), []).
Proof.
  split.
  - refine (proj1 (proj2
      (newDialerInitializer_port_range nat (Z * list string)
         ex_NewDialContext ex_ParseAddr ex_IP_String ex_JoinHostPort ex_world
         (URL_lit "tls" "dns.example:0853" EmptyString)
         (ex_opts [] [[9; 9; 9; 9]]) [] "dns.example" "0853"
         eq_refl eq_refl (conj eq_refl eq_refl) _ eq_refl)) _ _);
      [discriminate|vm_compute; discriminate|discriminate].
  - refine (proj1
      (newDialerInitializer_port_range nat (Z * list string)
         ex_NewDialContext ex_ParseAddr ex_IP_String ex_JoinHostPort ex_world
         (URL_lit "tls" "dns.example:65536" EmptyString)
         (ex_opts [] [[9; 9; 9; 9]]) [] "dns.example" "65536"
         eq_refl eq_refl (conj eq_refl eq_refl) _ eq_refl) _);
      [discriminate|reflexivity].
Defined.

(** [netutil.JoinHostPort] on hosts without brackets. *)
Definition ex_netutil_JoinHostPort (host : string) (port : N) : string :=
  net_JoinHostPort host (decimal port).

(** An IPv6 host gets its brackets and the port, and splits again. *)
Lemma addPort_host_splits_witness :
  exists uu',
    addPort ex_netutil_JoinHostPort
      (Some (URL_lit "tls" "2001:db8::1" EmptyString)) 853 = Some uu' /\
    netutil_SplitHostPort (Host uu') = inr ("2001:db8::1", 853) /\
    (Scheme uu', Path uu', RawQuery uu', Fragment uu') =
      ("tls", EmptyString, EmptyString, EmptyString) /\
    (forall port', addPort ex_netutil_JoinHostPort (Some uu') port' = Some uu').
Proof.
  exact (addPort_host_splits ex_netutil_JoinHostPort
           (URL_lit "tls" "2001:db8::1" EmptyString) 853
           (AddrError tooManyColons "2001:db8::1")
           eq_refl (conj eq_refl eq_refl) ltac:(vm_compute; discriminate) eq_refl).
Defined.

Example addPort_ipv6 :
  addPort ex_netutil_JoinHostPort
    (Some (URL_lit "tls" "2001:db8::1" EmptyString)) 853 =
  Some (URL_lit "tls" "[2001:db8::1]:853" EmptyString).
Proof. reflexivity. Qed.

(** Setting up the initializer for [ex_u] with the bootstrap servers of
    [ex_bootstrap_ok] builds two resolvers and resolves nothing. *)
Lemma newDialerInitializer_defers_resolution_witness :
  exists evs : list (Event nat (Z * list string)),
    [EvNewUpstreamResolver "8.8.8.8:53" (ex_opts ex_bootstrap_ok []) (inr 0%nat);
     EvNewUpstreamResolver "1.1.1.1:53" (ex_opts ex_bootstrap_ok []) (inr 1%nat)] =
    [] ++ evs /\
    Forall (fun ev => ~ is_resolution nat (Z * list string) ev) evs.
Proof.
  exact (proj2 (proj2
    (newDialerInitializer_defers_resolution nat (Z * list string)
       ex_NewDialContext ex_ParseAddr ex_IP_String ex_JoinHostPort ex_world
       ex_u (ex_opts ex_bootstrap_ok []) []
       [EvNewUpstreamResolver "8.8.8.8:53" (ex_opts ex_bootstrap_ok []) (inr 0%nat);
        EvNewUpstreamResolver "1.1.1.1:53" (ex_opts ex_bootstrap_ok []) (inr 1%nat)]
       (Some (diBootstrap ex_u (ex_opts ex_bootstrap_ok [])
                [upsResolver 0%nat; netResolver; upsResolver 1%nat]))
       (closeBootsFunc [0%nat; 1%nat]) None eq_refl))).
Defined.

(** *** Addresses, stamps and clones in the concrete world *)

(** The stamp's address is written into the options at location 0, and
    nothing else of them changes. *)
Lemma AddressToUpstream_writes_only_ServerIPAddrs_witness :
  exists o',
    heap (snd (ex_AddressToUpstream ex_stamp_addr (Some 0%nat) ex_state)) !! 0%nat =
      Some o' /\
    o' = set_ServerIPAddrs (ServerIPAddrs o') (ex_opts ["8.8.8.8:53"] [ex_ip_9999]) /\
    (ServerIPAddrs o' = [ex_ip_9999] \/ exists ip, ServerIPAddrs o' = [ip]).
Proof.
  exact (proj1 (proj2
    (AddressToUpstream_writes_only_ServerIPAddrs ex_Upstream ex_url_Parse
       ex_URL_String ex_NewServerStampFromString ex_net_ParseIP
       ex_StampProtoType_String (ex_constructor TPlain) (ex_constructor TDoQ)
       (ex_constructor TDoT) (ex_constructor TDoH) (ex_constructor TDNSCrypt)
       ex_stamp_addr 0%nat (ex_opts ["8.8.8.8:53"] [ex_ip_9999]) ex_state
       eq_refl))).
Defined.

(** The stamp's address lands in the clone, at location 1; the options at
    location 0 still list 9.9.9.9. *)
Lemma Clone_isolates_witness :
  exists clone st1,
    Clone ex_Upstream (Some 0%nat) ex_state = (Ok clone, st1) /\
    clone <> 0%nat /\
    heap ex_state !! clone = None /\
    heap st1 !! clone = Some (ex_opts ["8.8.8.8:53"] [ex_ip_9999]) /\
    heap st1 !! 0%nat = Some (ex_opts ["8.8.8.8:53"] [ex_ip_9999]) /\
    calls st1 = calls ex_state /\
    heap (snd (ex_AddressToUpstream ex_stamp_addr (Some clone) st1)) !! 0%nat =
      Some (ex_opts ["8.8.8.8:53"] [ex_ip_9999]).
Proof.
  exact (Clone_isolates ex_Upstream ex_url_Parse ex_URL_String
           ex_NewServerStampFromString ex_net_ParseIP ex_StampProtoType_String
           (ex_constructor TPlain) (ex_constructor TDoQ) (ex_constructor TDoT)
           (ex_constructor TDoH) (ex_constructor TDNSCrypt) 0%nat
           (ex_opts ["8.8.8.8:53"] [ex_ip_9999]) ex_state ex_stamp_addr eq_refl).
Defined.

Example Clone_then_stamp :
  heap (snd (ex_AddressToUpstream ex_stamp_addr (Some 1%nat)
               (snd (Clone ex_Upstream (Some 0%nat) ex_state)))) =
  <[1%nat := ex_opts ["8.8.8.8:53"] [ex_ip_1111]]>
    (<[1%nat := ex_opts ["8.8.8.8:53"] [ex_ip_9999]]> (heap ex_state)).
Proof. vm_compute. reflexivity. Qed.

(** A host name without a port goes to the plain constructor as it is. *)
Lemma AddressToUpstream_bare_is_plain_witness :
  ex_AddressToUpstream "dns.example" (Some 0%nat) ex_state =
  (Ok (TPlain, "dns.example"),
   mkState (heap ex_state)
     [mkConstructorCall TPlain (URL_lit "udp" "dns.example" EmptyString)
        (Some 0%nat) (Ok (TPlain, "dns.example"))]).
Proof.
  destruct (AddressToUpstream_bare_is_plain ex_Upstream ex_url_Parse
              ex_URL_String ex_NewServerStampFromString ex_net_ParseIP
              ex_StampProtoType_String (ex_constructor TPlain)
              (ex_constructor TDoQ) (ex_constructor TDoT) (ex_constructor TDoH)
              (ex_constructor TDNSCrypt) "dns.example" 0%nat ex_state eq_refl)
    as [[cause H]|H].
  - discriminate H.
  - exact H.
Defined.

(** Port 00053 is accepted and kept as written; port 70000 is refused. *)
Lemma AddressToUpstream_bare_port_range_witness :
  ex_AddressToUpstream "dns.example:00053" (Some 0%nat) ex_state =
  (Ok (TPlain, "dns.example:00053"),
   mkState (heap ex_state)
     [mkConstructorCall TPlain (URL_lit "udp" "dns.example:00053" EmptyString)
        (Some 0%nat) (Ok (TPlain, "dns.example:00053"))]) /\
  ex_AddressToUpstream "dns.example:70000" (Some 0%nat) ex_state =
  (Err (wrapError "invalid address %s: %w" [ArgS "dns.example:70000"]
          (rangeError "ParseUint" "70000")), ex_state).
Proof.
  split.
  - exact (AddressToUpstream_bare_port_range ex_Upstream ex_url_Parse
             ex_URL_String ex_NewServerStampFromString ex_net_ParseIP
             ex_StampProtoType_String (ex_constructor TPlain)
             (ex_constructor TDoQ) (ex_constructor TDoT) (ex_constructor TDoH)
             (ex_constructor TDNSCrypt) "dns.example" "00053" 0%nat ex_state
             eq_refl (conj eq_refl eq_refl) eq_refl).
  - exact (AddressToUpstream_bare_port_range ex_Upstream ex_url_Parse
             ex_URL_String ex_NewServerStampFromString ex_net_ParseIP
             ex_StampProtoType_String (ex_constructor TPlain)
             (ex_constructor TDoQ) (ex_constructor TDoT) (ex_constructor TDoH)
             (ex_constructor TDNSCrypt) "dns.example" "70000" 0%nat ex_state
             eq_refl (conj eq_refl eq_refl) eq_refl).
Defined.

(** For the stamp of the server at 1.1.1.1, one constructor is called. *)
Lemma AddressToUpstream_calls_one_constructor_witness :
  exists tp uu st1,
    calls st1 = calls ex_state /\
    fst (ex_AddressToUpstream ex_stamp_addr (Some 0%nat) ex_state) =
      ex_constructor tp uu (Some 0%nat) st1 /\
    calls (snd (ex_AddressToUpstream ex_stamp_addr (Some 0%nat) ex_state)) =
      calls ex_state ++
      [mkConstructorCall tp uu (Some 0%nat)
         (fst (ex_AddressToUpstream ex_stamp_addr (Some 0%nat) ex_state))].
Proof.
  destruct (AddressToUpstream_calls_one_constructor ex_Upstream ex_url_Parse
              ex_URL_String ex_NewServerStampFromString ex_net_ParseIP
              ex_StampProtoType_String (ex_constructor TPlain)
              (ex_constructor TDoQ) (ex_constructor TDoT) (ex_constructor TDoH)
              (ex_constructor TDNSCrypt) ex_stamp_addr 0%nat ex_state
              (ex_intro _ _ eq_refl))
    as [[[e He] _]|(tp & uu & st1 & Hc & Hr & Hcalls)].
  - discriminate He.
  - exists tp, uu, st1. split; [exact Hc|]. split; [|exact Hcalls].
    unfold ex_AddressToUpstream. rewrite Hr. by destruct tp.
Defined.

(** The stamp's address 1.1.1.1:443 is stored as 1.1.1.1. *)
Lemma parseStamp_drops_port_witness :
  stamp_host "1.1.1.1:443" = "1.1.1.1" /\
  heap (snd (ex_parseStamp (URL_lit "sdns" "AgcAAAAAAAAABzEuMS4xLjE" EmptyString)
               (Some 0%nat) ex_state)) =
  <[0%nat := ex_opts ["8.8.8.8:53"] [ex_ip_1111]]> (heap ex_state).
Proof.
  exact (parseStamp_drops_port ex_Upstream ex_URL_String
           ex_NewServerStampFromString ex_net_ParseIP ex_StampProtoType_String
           (ex_constructor TPlain) (ex_constructor TDoQ) (ex_constructor TDoT)
           (ex_constructor TDoH) (ex_constructor TDNSCrypt)
           (URL_lit "sdns" "AgcAAAAAAAAABzEuMS4xLjE" EmptyString) 0%nat
           (ex_opts ["8.8.8.8:53"] [ex_ip_9999]) ex_state
           (mkServerStamp "1.1.1.1:443" "cloudflare-dns.com" "/dns-query"
              StampProtoTypeDoH)
           "1.1.1.1" "443" ex_ip_1111 eq_refl eq_refl eq_refl
           (conj eq_refl eq_refl) ltac:(discriminate) eq_refl
           ltac:(vm_compute; discriminate) eq_refl).
Defined.
